(** * Green-function kernels for panel BEM solvers: a shallow embedding

    The development follows the Go package [green_functions]:
    the utilities (wave-number solver, tabulation cache, dimension
    validation), the base type shared by every kernel strategy (mesh
    extraction, matrix allocation) and the four strategies (Delhommeau,
    FinGreen3D, LiangWuNoblesseGF, HAMS).

    Conventions of the embedding.
    - A Go [float64] is a value of [float64] below: an exact real number or one
      of the three special values the code branches on (+Inf, -Inf, NaN).
      Arithmetic on finite values is exact real arithmetic: rounding, overflow
      to infinity, underflow to zero and the sign of zero are not represented
      (the zero of the model behaves as +0).  A statement that gives a
      computed value as a real expression is a fact of this arithmetic; the
      statements made in the code's own operations and comparisons do not
      depend on it.
    - A Go [int] is a [Z]; the one product the code computes on dimensions
      wraps at 64 bits as the hardware does.
    - A Go function returning [(value, error)] returns a [result]; a run-time
      panic (index out of range, gonum's dimension panics) is the third
      outcome [Panic].
    - A method that assigns to its receiver returns the updated receiver. *)

From Stdlib Require Import Reals Lra Lia ZArith List String Bool.
Import ListNotations.
Local Open Scope string_scope.
Local Open Scope list_scope.
Local Open Scope R_scope.

(** ** Outcomes of Go calls *)

(** The two concrete error types the package creates: [errors.New] values and
    the package's own [GreenFunctionEvaluationError]. *)
Inductive error : Type :=
| errorString (s : string)
| GreenFunctionEvaluationError (Message : string).

Definition Error (e : error) : string :=
  match e with
  | errorString s => s
  | GreenFunctionEvaluationError m => m
  end.

Inductive result (A : Type) : Type :=
| Ok (a : A)
| Err (e : error)
| Panic (msg : string).

Arguments Ok {A} a.
Arguments Err {A} e.
Arguments Panic {A} msg.

Definition bind {A B : Type} (m : result A) (k : A -> result B) : result B :=
  match m with
  | Ok a => k a
  | Err e => Err e
  | Panic msg => Panic msg
  end.

Notation "x <- m ;; k" := (bind m (fun x => k))
  (at level 61, m at next level, right associativity).
Notation "' p <- m ;; k" := (bind m (fun p => k))
  (at level 61, p pattern, m at next level, right associativity).

Definition is_Err {A : Type} (m : result A) : Prop :=
  match m with Err _ => True | _ => False end.

Definition is_Ok {A : Type} (m : result A) : Prop :=
  match m with Ok _ => True | _ => False end.

(** ** Go's [int] *)

Module GoInt.

Definition min_int : Z := - 2 ^ 63.
Definition max_int : Z := 2 ^ 63 - 1.

Definition in_range (z : Z) : Prop := (min_int <= z <= max_int)%Z.

(** Two's-complement reduction of a mathematical integer to 64 bits. *)
Definition wrap (z : Z) : Z := ((z + 2 ^ 63) mod 2 ^ 64 - 2 ^ 63)%Z.

Definition mul (a b : Z) : Z := wrap (a * b).

End GoInt.

(** Indexing a slice; Go panics when the index is out of range. *)
Definition index {A : Type} (s : list A) (i : Z) : result A :=
  if (i <? 0)%Z then Panic "index out of range"
  else match nth_error s (Z.to_nat i) with
       | Some x => Ok x
       | None => Panic "index out of range"
       end.

Definition len {A : Type} (s : list A) : Z := Z.of_nat (List.length s).

(** [s[i][j]] on a slice of slices. *)
Definition index2 {A : Type} (s : list (list A)) (i j : Z) : result A :=
  row <- index s i ;; index row j.

(** ** Go's [float64] and package [math] *)

Inductive float64 : Type :=
| Fin (x : R)
| PInf
| NInf
| NaN.

Definition Rltb (x y : R) : bool := if Rlt_dec x y then true else false.
Definition Rleb (x y : R) : bool := if Rle_dec x y then true else false.
Definition Reqb (x y : R) : bool := if Req_dec_T x y then true else false.

Definition fneg (a : float64) : float64 :=
  match a with
  | Fin x => Fin (- x)
  | PInf => NInf
  | NInf => PInf
  | NaN => NaN
  end.

Definition fadd (a b : float64) : float64 :=
  match a, b with
  | NaN, _ | _, NaN => NaN
  | Fin x, Fin y => Fin (x + y)
  | PInf, NInf | NInf, PInf => NaN
  | PInf, _ | _, PInf => PInf
  | NInf, _ | _, NInf => NInf
  end.

Definition fsub (a b : float64) : float64 :=
  match a, b with
  | NaN, _ | _, NaN => NaN
  | Fin x, Fin y => Fin (x - y)
  | PInf, PInf | NInf, NInf => NaN
  | PInf, _ | _, NInf => PInf
  | NInf, _ | _, PInf => NInf
  end.

(** The infinity with the sign of [x] (flipped unless [positive]); NaN for
    [x = 0]. *)
Definition signed_inf (positive : bool) (x : R) : float64 :=
  if Rltb 0 x then (if positive then PInf else NInf)
  else if Rltb x 0 then (if positive then NInf else PInf)
  else NaN.

Definition fmul (a b : float64) : float64 :=
  match a, b with
  | NaN, _ | _, NaN => NaN
  | Fin x, Fin y => Fin (x * y)
  | Fin x, PInf | PInf, Fin x => signed_inf true x
  | Fin x, NInf | NInf, Fin x => signed_inf false x
  | PInf, PInf | NInf, NInf => PInf
  | PInf, NInf | NInf, PInf => NInf
  end.

Definition fdiv (a b : float64) : float64 :=
  match a, b with
  | NaN, _ | _, NaN => NaN
  | Fin x, Fin y => if Reqb y 0 then signed_inf true x else Fin (x / y)
  | Fin _, PInf | Fin _, NInf => Fin 0
  | PInf, Fin y => if Rltb y 0 then NInf else PInf
  | NInf, Fin y => if Rltb y 0 then PInf else NInf
  | _, _ => NaN
  end.

Definition flt (a b : float64) : bool :=
  match a, b with
  | Fin x, Fin y => Rltb x y
  | NInf, Fin _ | NInf, PInf | Fin _, PInf => true
  | _, _ => false
  end.

Definition fle (a b : float64) : bool :=
  match a, b with
  | Fin x, Fin y => Rleb x y
  | NInf, Fin _ | NInf, PInf | Fin _, PInf | PInf, PInf | NInf, NInf => true
  | _, _ => false
  end.

Definition feq (a b : float64) : bool :=
  match a, b with
  | Fin x, Fin y => Reqb x y
  | PInf, PInf | NInf, NInf => true
  | _, _ => false
  end.

Definition fgt (a b : float64) : bool := flt b a.
Definition fge (a b : float64) : bool := fle b a.
Definition fne (a b : float64) : bool := negb (feq a b).

Definition float64_of_int (n : Z) : float64 := Fin (IZR n).

Module math.

Definition Pi : float64 := Fin PI.

(** [math.Inf(sign)]: +Inf for [sign >= 0], -Inf otherwise. *)
Definition Inf (sign : Z) : float64 := if (0 <=? sign)%Z then PInf else NInf.

(** [math.IsInf(f, sign)]: [f] is +Inf when [sign > 0], -Inf when [sign < 0],
    either when [sign = 0]. *)
Definition IsInf (f : float64) (sign : Z) : bool :=
  match f with
  | PInf => (0 <=? sign)%Z
  | NInf => (sign <=? 0)%Z
  | _ => false
  end.

Definition Abs (a : float64) : float64 :=
  match a with
  | Fin x => Fin (Rabs x)
  | PInf | NInf => PInf
  | NaN => NaN
  end.

Definition Sqrt (a : float64) : float64 :=
  match a with
  | Fin x => if Rltb x 0 then NaN else Fin (sqrt x)
  | PInf => PInf
  | NInf | NaN => NaN
  end.

Definition Tanh (a : float64) : float64 :=
  match a with
  | Fin x => Fin (tanh x)
  | PInf => Fin 1
  | NInf => Fin (-1)
  | NaN => NaN
  end.

Definition Exp (a : float64) : float64 :=
  match a with
  | Fin x => Fin (exp x)
  | PInf => PInf
  | NInf => Fin 0
  | NaN => NaN
  end.

End math.

(** ** Go's [complex128] *)

Definition complex128 : Type := (float64 * float64)%type.

Definition complex (re im : float64) : complex128 := (re, im).
Definition real (c : complex128) : float64 := fst c.
Definition imag (c : complex128) : float64 := snd c.

Definition czero : complex128 := complex (Fin 0) (Fin 0).

Definition cadd (a b : complex128) : complex128 :=
  complex (fadd (real a) (real b)) (fadd (imag a) (imag b)).

Definition csub (a b : complex128) : complex128 :=
  complex (fsub (real a) (real b)) (fsub (imag a) (imag b)).

Definition cmul (a b : complex128) : complex128 :=
  complex (fsub (fmul (real a) (real b)) (fmul (imag a) (imag b)))
          (fadd (fmul (real a) (imag b)) (fmul (imag a) (real b))).

(** ** gonum's dense matrices (package [mat], v0.16)

    The library is not part of the repository; its constructors are modelled
    from their documented behaviour: row-major backing slice, a panic on a
    zero or negative dimension, a zero-filled backing slice of [r*c] elements
    when no data is supplied. *)

Module mat.

Record Dense : Type := mkDense
  { d_rows : Z; d_cols : Z; d_data : list float64 }.

Record CDense : Type := mkCDense
  { c_rows : Z; c_cols : Z; c_data : list complex128 }.

Definition ErrZeroLength : string := "mat: zero length in matrix dimension".
Definition ErrNegativeDimension : string := "mat: negative dimension".
Definition ErrRowAccess : string := "mat: row index out of range".
Definition ErrColAccess : string := "mat: column index out of range".

(** [make([]T, n)] with zero values; a negative length panics.  The
    allocation itself always succeeds here: the runtime's limit on the
    length of a slice and the exhaustion of memory are not represented. *)
Definition make {A : Type} (zero : A) (n : Z) : result (list A) :=
  if (n <? 0)%Z then Panic "makeslice: len out of range"
  else Ok (repeat zero (Z.to_nat n)).

Definition check_dims (r c : Z) : result unit :=
  if (r <=? 0)%Z || (c <=? 0)%Z then
    (if (r =? 0)%Z || (c =? 0)%Z then Panic ErrZeroLength
     else Panic ErrNegativeDimension)
  else Ok tt.

(** [mat.NewDense(r, c, nil)] *)
Definition NewDense (r c : Z) : result Dense :=
  _ <- check_dims r c ;;
  data <- make (Fin 0) (GoInt.mul r c) ;;
  Ok (mkDense r c data).

(** [mat.NewCDense(r, c, nil)] *)
Definition NewCDense (r c : Z) : result CDense :=
  _ <- check_dims r c ;;
  data <- make czero (GoInt.mul r c) ;;
  Ok (mkCDense r c data).

Definition Dims (m : Dense) : Z * Z := (d_rows m, d_cols m).
Definition CDims (m : CDense) : Z * Z := (c_rows m, c_cols m).

(** [At(i, j)] on a [CDense] *)
Definition At (m : CDense) (i j : Z) : result complex128 :=
  if (i <? 0)%Z || (c_rows m <=? i)%Z then Panic ErrRowAccess
  else if (j <? 0)%Z || (c_cols m <=? j)%Z then Panic ErrColAccess
  else index (c_data m) (i * c_cols m + j).

End mat.

(** ** Utilities of the package: constants, wave number, tabulation cache *)

Definition Gravity : float64 := Fin 9.81.

(** Why the Newton-Raphson loop of [ComputeWaveNumber] was left.  The Go
    function returns only the wave number; the reason is kept beside it so
    that properties of each exit can be stated. *)
Inductive stop : Type :=
| Degenerate   (* |df| < 1e-15: first [break] *)
| Converged    (* |k_new - k| < 1e-12: second [break] *)
| Exhausted.   (* the hundred iterations were used up *)

(** The body of [for i := 0; i < 100; i++ { ... }], with [n] iterations left
    and [k] the current estimate. *)
Fixpoint newton_loop (n : nat) (v waterDepth k : float64) : float64 * stop :=
  match n with
  | O => (k, Exhausted)
  | S n' =>
      let tanh_kh := math.Tanh (fmul k waterDepth) in
      let sech2_kh := fsub (Fin 1) (fmul tanh_kh tanh_kh) in
      let f := fsub (fmul k tanh_kh) v in
      let df := fadd tanh_kh (fmul (fmul k waterDepth) sech2_kh) in
      if flt (math.Abs df) (Fin 1e-15) then (k, Degenerate)
      else
        let k_new := fsub k (fdiv f df) in
        if flt (math.Abs (fsub k_new k)) (Fin 1e-12) then (k, Converged)
        else newton_loop n' v waterDepth k_new
  end.

Definition ComputeWaveNumber (omega waterDepth : float64) : complex128 :=
  if math.IsInf waterDepth 1 then
    let k := fdiv (fmul omega omega) Gravity in
    complex k (Fin 0)
  else
    let v := fdiv (fmul omega omega) Gravity in
    let k := v in
    complex (fst (newton_loop 100 v waterDepth k)) (Fin 0).

Definition FloatingPointPrecision : Type := string.
Definition Float32 : FloatingPointPrecision := "float32".
Definition Float64 : FloatingPointPrecision := "float64".

Record TabulationCache : Type := mkTabulationCache
  { RRange : list float64;
    ZRange : list float64;
    Values : list (list complex128);
    IsValid : bool;
    Precision : FloatingPointPrecision }.

Definition NewTabulationCache (rRange zRange : list float64)
    (precision : FloatingPointPrecision) : TabulationCache :=
  let rows := List.length zRange in
  let cols := List.length rRange in
  let values := repeat (repeat czero cols) rows in
  mkTabulationCache rRange zRange values false precision.

(** [for i := 0; i < len(arr)-1; i++]: [arr] is the part of the slice from
    position [i] on. *)
Fixpoint findIndex_from (i : Z) (arr : list float64) (val : float64) : Z :=
  match arr with
  | a :: (b :: _) as rest =>
      if fge val a && fle val b then i
      else findIndex_from (i + 1)%Z rest val
  | _ => (-1)%Z
  end.

Definition findIndex (arr : list float64) (val : float64) : Z :=
  findIndex_from 0%Z arr val.

Definition Interpolate (tc : TabulationCache) (r z : float64)
    : result complex128 :=
  if negb (IsValid tc) then
    Err (GreenFunctionEvaluationError "Tabulation cache is not valid")
  else
    let rIdx := findIndex (RRange tc) r in
    let zIdx := findIndex (ZRange tc) z in
    if (rIdx <? 0)%Z || (len (RRange tc) - 1 <=? rIdx)%Z
       || (zIdx <? 0)%Z || (len (ZRange tc) - 1 <=? zIdx)%Z then
      Err (GreenFunctionEvaluationError "Point outside tabulation range")
    else
      r1 <- index (RRange tc) rIdx ;;
      r2 <- index (RRange tc) (rIdx + 1) ;;
      z1 <- index (ZRange tc) zIdx ;;
      z2 <- index (ZRange tc) (zIdx + 1) ;;
      let fr := fdiv (fsub r r1) (fsub r2 r1) in
      let fz := fdiv (fsub z z1) (fsub z2 z1) in
      v11 <- index2 (Values tc) zIdx rIdx ;;
      v12 <- index2 (Values tc) (zIdx + 1) rIdx ;;
      v21 <- index2 (Values tc) zIdx (rIdx + 1) ;;
      v22 <- index2 (Values tc) (zIdx + 1) (rIdx + 1) ;;
      let v1 := cadd (cmul v11 (complex (fsub (Fin 1) fr) (Fin 0)))
                     (cmul v21 (complex fr (Fin 0))) in
      let v2 := cadd (cmul v12 (complex (fsub (Fin 1) fr) (Fin 0)))
                     (cmul v22 (complex fr (Fin 0))) in
      let result := cadd (cmul v1 (complex (fsub (Fin 1) fz) (Fin 0)))
                         (cmul v2 (complex fz (Fin 0))) in
      Ok result.

(** [nil] is [None]. *)
Definition ValidateMatrixDimensions (rows cols : Z) : option error :=
  if (rows <=? 0)%Z || (cols <=? 0)%Z then
    Some (GreenFunctionEvaluationError "Matrix dimensions must be positive")
  else if (1000000 <? rows)%Z || (1000000 <? cols)%Z then
    Some (GreenFunctionEvaluationError "Matrix dimensions too large")
  else None.

(** ** The base type shared by the strategies *)

(** A value implementing the [MeshLike] interface: what its three methods
    return. *)
Record MeshLike : Type := mkMeshLike
  { GetFacesCenters : mat.Dense;
    GetFacesNormals : mat.Dense;
    GetNbFaces : Z }.

(** The dynamic type of an [interface{}] argument, as the type switches of the
    package see it. *)
Inductive GoValue : Type :=
| AsMeshLike (m : MeshLike)
| AsDense (d : mat.Dense)
| AsOther.

Record BaseGreenFunction : Type := mkBaseGreenFunction
  { bgf_FloatingPointPrecision : FloatingPointPrecision }.

Definition NewBaseGreenFunction : BaseGreenFunction :=
  mkBaseGreenFunction Float64.

Definition SetFloatingPointPrecision (bgf : BaseGreenFunction)
    (precision : FloatingPointPrecision) : BaseGreenFunction :=
  mkBaseGreenFunction precision.

Definition getColocationPointsAndNormals (bgf : BaseGreenFunction)
    (mesh1 mesh2 : GoValue) (adjointDoubleLayer : bool)
    : result (mat.Dense * mat.Dense) :=
  match mesh1 with
  | AsMeshLike m1 =>
      let colocationPoints := GetFacesCenters m1 in
      if negb adjointDoubleLayer then
        match mesh2 with
        | AsMeshLike m2 => Ok (colocationPoints, GetFacesNormals m2)
        | _ => Err (errorString
            "mesh2 must implement MeshLike interface when mesh1 is MeshLike")
        end
      else Ok (colocationPoints, GetFacesNormals m1)
  | AsDense m1 =>
      let '(rows, cols) := mat.Dims m1 in
      if negb (cols =? 3)%Z then
        Err (errorString
          "point array must have 3 columns (x, y, z coordinates)")
      else
        let colocationPoints := m1 in
        if negb adjointDoubleLayer then
          match mesh2 with
          | AsMeshLike m2 => Ok (colocationPoints, GetFacesNormals m2)
          | _ => Err (errorString
              "mesh2 must implement MeshLike interface when mesh1 is point array")
          end
        else
          normals <- mat.NewDense rows 3 ;;
          Ok (colocationPoints, normals)
  | AsOther =>
      Err (errorString
        "unrecognized first input type for Green function evaluation")
  end.

Definition initMatrices (bgf : BaseGreenFunction) (rows cols : Z)
    (earlyDotProduct : bool) : result (mat.CDense * mat.CDense) :=
  matS <- mat.NewCDense rows cols ;;
  let kCols := if earlyDotProduct then 1%Z else 3%Z in
  matK <- mat.NewCDense rows (GoInt.mul cols kCols) ;;
  Ok (matS, matK).

(** The block "Determine matrix dimensions", written out identically in the
    four [Evaluate] methods. *)
Definition matrixDimensions (mesh1 mesh2 : GoValue) : result (Z * Z) :=
  let rows :=
    match mesh1 with
    | AsMeshLike meshLike1 => GetNbFaces meshLike1
    | AsDense pointArray => fst (mat.Dims pointArray)
    | AsOther => 0%Z
    end in
  match mesh2 with
  | AsMeshLike meshLike2 => Ok (rows, GetNbFaces meshLike2)
  | _ => Err (GreenFunctionEvaluationError
                "mesh2 must implement MeshLike interface")
  end.

(** ** The strategy interface *)

(** [AbstractGreenFunction]: the three methods every strategy provides.
    [Evaluate] hands back the receiver because one strategy (FinGreen3D)
    assigns to its fields. *)
Class AbstractGreenFunction (T : Type) : Type :=
  { Evaluate : T -> GoValue -> GoValue -> float64 -> float64 -> complex128 ->
               bool -> bool -> T * result (mat.CDense * mat.CDense);
    GetFloatingPointPrecision : T -> FloatingPointPrecision;
    WithFloatingPointPrecision : T -> FloatingPointPrecision -> T }.

(** ** Delhommeau *)

Record DelhommeauParameters : Type := mkDelhommeauParameters
  { TabulationNr : Z;
    TabulationRmax : float64;
    TabulationNz : Z;
    TabulationZmin : float64;
    TabulationNbIntegrationPoints : Z;
    TabulationGridShape : string;
    TabulationCacheDir : string;
    FiniteDepthMethod : string;
    FiniteDepthPronyDecompositionMethod : string;
    dp_FloatingPointPrecision : FloatingPointPrecision;
    GfSingularities : string }.

Definition DefaultDelhommeauParameters : DelhommeauParameters :=
  {| TabulationNr := 676;
     TabulationRmax := Fin 100;
     TabulationNz := 372;
     TabulationZmin := Fin (-251);
     TabulationNbIntegrationPoints := 1001;
     TabulationGridShape := "scaled_nemoh3";
     TabulationCacheDir := "";
     FiniteDepthMethod := "newer";
     FiniteDepthPronyDecompositionMethod := "python";
     dp_FloatingPointPrecision := Float64;
     GfSingularities := "low_freq" |}.

(** The settings map and its hash play no part in evaluation and are left
    out of the record. *)
Record Delhommeau : Type := mkDelhommeau
  { d_base : BaseGreenFunction;
    parameters : DelhommeauParameters;
    tabulationGridShapeIndex : Z;
    finiteDepthMethodIndex : Z;
    gfSingularitiesIndex : Z;
    dispersionRelationRoots : list complex128 }.

Definition NewDelhommeau (params : DelhommeauParameters) : Delhommeau :=
  let base := SetFloatingPointPrecision NewBaseGreenFunction
                (dp_FloatingPointPrecision params) in
  let grid :=
    if String.eqb (TabulationGridShape params) "legacy" then 0%Z
    else if String.eqb (TabulationGridShape params) "scaled_nemoh3" then 1%Z
    else 0%Z in
  let depth :=
    if String.eqb (FiniteDepthMethod params) "legacy" then 0%Z
    else if String.eqb (FiniteDepthMethod params) "newer" then 1%Z
    else 0%Z in
  let sing :=
    if String.eqb (GfSingularities params) "high_freq" then 0%Z
    else if String.eqb (GfSingularities params) "low_freq" then 1%Z
    else if String.eqb (GfSingularities params) "low_freq_with_rankine_part"
    then 2%Z
    else 0%Z in
  mkDelhommeau base params grid depth sing [czero].

Definition Delhommeau_Evaluate (d : Delhommeau) (mesh1 mesh2 : GoValue)
    (freeSurface waterDepth : float64) (wavenumber : complex128)
    (adjointDoubleLayer earlyDotProduct : bool)
    : result (mat.CDense * mat.CDense) :=
  '(colocationPoints, earlyDotProductNormals) <-
    getColocationPointsAndNormals (d_base d) mesh1 mesh2 adjointDoubleLayer ;;
  '(rows, cols) <- matrixDimensions mesh1 mesh2 ;;
  '(matS, matK) <- initMatrices (d_base d) rows cols earlyDotProduct ;;
  Ok (matS, matK).

#[export] Instance Delhommeau_GreenFunction : AbstractGreenFunction Delhommeau :=
  { Evaluate d m1 m2 fs wd k adj early :=
      (d, Delhommeau_Evaluate d m1 m2 fs wd k adj early);
    GetFloatingPointPrecision d := bgf_FloatingPointPrecision (d_base d);
    WithFloatingPointPrecision d p :=
      mkDelhommeau (SetFloatingPointPrecision (d_base d) p) (parameters d)
        (tabulationGridShapeIndex d) (finiteDepthMethodIndex d)
        (gfSingularitiesIndex d) (dispersionRelationRoots d) }.

(** ** FinGreen3D *)

Record FinGreen3D : Type := mkFinGreen3D
  { fg_base : BaseGreenFunction;
    waterDepth : float64;
    waveNumber : complex128;
    dispersionRoots : list complex128 }.

Definition NewFinGreen3D (waterDepth : float64) : FinGreen3D :=
  mkFinGreen3D (SetFloatingPointPrecision NewBaseGreenFunction Float64)
    waterDepth czero [].

(** [for n := 1; n <= 10; n++ { roots = append(roots, kn) }] with [count]
    iterations left, the next one for mode [n]. *)
Fixpoint appendEvanescent (count : nat) (n : Z) (h : float64)
    (roots : list complex128) : list complex128 :=
  match count with
  | O => roots
  | S count' =>
      let kn := complex (Fin 0)
                  (fdiv (fmul (float64_of_int n) math.Pi) h) in
      appendEvanescent count' (n + 1)%Z h (roots ++ [kn])
  end.

Definition computeDispersionRoots (fg : FinGreen3D) (wavenumber : complex128)
    : result (list complex128) :=
  let k0 := wavenumber in
  let roots := [k0] in
  let roots :=
    if negb (math.IsInf (waterDepth fg) 1)
    then appendEvanescent 10 1%Z (waterDepth fg) roots
    else roots in
  Ok roots.

Definition SetWaveNumber (fg : FinGreen3D) (wavenumber : complex128)
    : FinGreen3D * result unit :=
  let fg := mkFinGreen3D (fg_base fg) (waterDepth fg) wavenumber
              (dispersionRoots fg) in
  match computeDispersionRoots fg wavenumber with
  | Ok roots =>
      (mkFinGreen3D (fg_base fg) (waterDepth fg) (waveNumber fg) roots, Ok tt)
  | Err e => (fg, Err e)
  | Panic msg => (fg, Panic msg)
  end.

Definition FinGreen3D_Evaluate (fg : FinGreen3D) (mesh1 mesh2 : GoValue)
    (freeSurface waterDepth' : float64) (wavenumber : complex128)
    (adjointDoubleLayer earlyDotProduct : bool)
    : FinGreen3D * result (mat.CDense * mat.CDense) :=
  let fg :=
    if fne waterDepth' (waterDepth fg)
    then mkFinGreen3D (fg_base fg) waterDepth' (waveNumber fg)
           (dispersionRoots fg)
    else fg in
  let '(fg, err) := SetWaveNumber fg wavenumber in
  (fg,
   _ <- err ;;
   '(colocationPoints, earlyDotProductNormals) <-
     getColocationPointsAndNormals (fg_base fg) mesh1 mesh2
       adjointDoubleLayer ;;
   '(rows, cols) <- matrixDimensions mesh1 mesh2 ;;
   '(matS, matK) <- initMatrices (fg_base fg) rows cols earlyDotProduct ;;
   Ok (matS, matK)).

Definition computeInfiniteDepthGF (fg : FinGreen3D) (rr zf zp : float64)
    : result complex128 :=
  let r := math.Sqrt (fadd (fmul rr rr) (fmul (fsub zf zp) (fsub zf zp))) in
  let rPrime :=
    math.Sqrt (fadd (fmul rr rr) (fmul (fadd zf zp) (fadd zf zp))) in
  let rankine := fadd (fdiv (Fin 1) r) (fdiv (Fin 1) rPrime) in
  let k := real (waveNumber fg) in
  if feq k (Fin 0) then Ok (complex rankine (Fin 0))
  else
    let waveHeight := fmul k (fadd zf zp) in
    let wavePart :=
      if fgt waveHeight (Fin (-10))
      then complex (fmul (fmul (Fin 2) k) (math.Exp waveHeight)) (Fin 0)
      else complex (Fin 0) (Fin 0) in
    Ok (cadd (complex rankine (Fin 0)) wavePart).

#[export] Instance FinGreen3D_GreenFunction : AbstractGreenFunction FinGreen3D :=
  { Evaluate := FinGreen3D_Evaluate;
    GetFloatingPointPrecision fg := bgf_FloatingPointPrecision (fg_base fg);
    WithFloatingPointPrecision fg p :=
      mkFinGreen3D (SetFloatingPointPrecision (fg_base fg) p) (waterDepth fg)
        (waveNumber fg) (dispersionRoots fg) }.

(** ** LiangWuNoblesseGF and HAMS *)

Record LiangWuNoblesseGF : Type := mkLiangWuNoblesseGF
  { lwn_base : BaseGreenFunction }.

Definition NewLiangWuNoblesseGF : LiangWuNoblesseGF :=
  mkLiangWuNoblesseGF (SetFloatingPointPrecision NewBaseGreenFunction Float64).

Definition LiangWuNoblesseGF_domainError : error :=
  errorString
    "LiangWuNoblesseGF is only implemented for infinite depth with a free surface".

Definition LiangWuNoblesseGF_Evaluate (lwn : LiangWuNoblesseGF)
    (mesh1 mesh2 : GoValue) (freeSurface waterDepth : float64)
    (wavenumber : complex128) (adjointDoubleLayer earlyDotProduct : bool)
    : result (mat.CDense * mat.CDense) :=
  if math.IsInf freeSurface 1 || negb (math.IsInf waterDepth 1) then
    Err LiangWuNoblesseGF_domainError
  else
    '(colocationPoints, earlyDotProductNormals) <-
      getColocationPointsAndNormals (lwn_base lwn) mesh1 mesh2
        adjointDoubleLayer ;;
    '(rows, cols) <- matrixDimensions mesh1 mesh2 ;;
    '(matS, matK) <- initMatrices (lwn_base lwn) rows cols earlyDotProduct ;;
    let gfSingularitiesIndex :=
      if math.IsInf (real wavenumber) 1 then 0%Z else 1%Z in
    Ok (matS, matK).

#[export] Instance LiangWuNoblesseGF_GreenFunction
  : AbstractGreenFunction LiangWuNoblesseGF :=
  { Evaluate l m1 m2 fs wd k adj early :=
      (l, LiangWuNoblesseGF_Evaluate l m1 m2 fs wd k adj early);
    GetFloatingPointPrecision l := bgf_FloatingPointPrecision (lwn_base l);
    WithFloatingPointPrecision l p :=
      mkLiangWuNoblesseGF (SetFloatingPointPrecision (lwn_base l) p) }.

Record HAMS : Type := mkHAMS
  { hams_base : BaseGreenFunction }.

Definition NewHAMS : HAMS :=
  mkHAMS (SetFloatingPointPrecision NewBaseGreenFunction Float64).

Definition HAMS_Evaluate (h : HAMS) (mesh1 mesh2 : GoValue)
    (freeSurface waterDepth : float64) (wavenumber : complex128)
    (adjointDoubleLayer earlyDotProduct : bool)
    : result (mat.CDense * mat.CDense) :=
  '(colocationPoints, earlyDotProductNormals) <-
    getColocationPointsAndNormals (hams_base h) mesh1 mesh2
      adjointDoubleLayer ;;
  '(rows, cols) <- matrixDimensions mesh1 mesh2 ;;
  '(matS, matK) <- initMatrices (hams_base h) rows cols earlyDotProduct ;;
  Ok (matS, matK).

#[export] Instance HAMS_GreenFunction : AbstractGreenFunction HAMS :=
  { Evaluate h m1 m2 fs wd k adj early :=
      (h, HAMS_Evaluate h m1 m2 fs wd k adj early);
    GetFloatingPointPrecision h := bgf_FloatingPointPrecision (hams_base h);
    WithFloatingPointPrecision h p :=
      mkHAMS (SetFloatingPointPrecision (hams_base h) p) }.

(** ** The specification's own formulas

    These definitions follow the wording of the specification, not the code;
    the theorems below compare the code with them. *)

Module Spec.

Definition g : R := 9.81.

(** [f(k) = k tanh(kh) - v] and [f'(k) = tanh(kh) + k h (1 - tanh^2(kh))]. *)
Definition f (v h k : R) : R := k * tanh (k * h) - v.
Definition f' (h k : R) : R :=
  tanh (k * h) + k * h * (1 - tanh (k * h) * tanh (k * h)).

(** The same two functions in the [float64] operations of the code, read
    left to right as the formulas are written. *)
Definition f64 (v h k : float64) : float64 :=
  fsub (fmul k (math.Tanh (fmul k h))) v.

Definition f64' (h k : float64) : float64 :=
  fadd (math.Tanh (fmul k h))
       (fmul (fmul k h)
          (fsub (Fin 1)
             (fmul (math.Tanh (fmul k h)) (math.Tanh (fmul k h))))).

(** One Newton-Raphson step: [k_new = k - f(k)/f'(k)]. *)
Definition k_new (v h k : float64) : float64 :=
  fsub k (fdiv (f64 v h k) (f64' h k)).

(** The two stopping tests: [|f'(k)| < 1e-15] (degenerate derivative) and
    [|k_new - k| < 1e-12] (converged). *)
Definition degenerate (h k : float64) : bool :=
  flt (math.Abs (f64' h k)) (Fin 1e-15).

Definition converged (v h k : float64) : bool :=
  flt (math.Abs (fsub (k_new v h k) k)) (Fin 1e-12).

(** Newton-Raphson as the specification words it: up to [steps] steps from
    the estimate [k]; the iteration stops at an estimate where one of the
    two tests holds, and that estimate is the root returned; otherwise it
    moves on to [k_new]. *)
Fixpoint NewtonRaphson (steps : nat) (v h k : float64) : float64 :=
  match steps with
  | O => k
  | S steps' =>
      if degenerate h k then k
      else if converged v h k then k
      else NewtonRaphson steps' v h (k_new v h k)
  end.

(** Finite depth: initial guess [k0 = v = omega^2/g], at most 100 steps. *)
Definition WaveNumberRoot (omega h : float64) : float64 :=
  let v := fdiv (fmul omega omega) (Fin g) in
  NewtonRaphson 100 v h v.

(** Bilinear blend of four corner values, first along r, then along z. *)
Definition scale (v : complex128) (t : float64) : complex128 :=
  cmul v (complex t (Fin 0)).

Definition Bilinear (v11 v12 v21 v22 : complex128) (fr fz : float64)
    : complex128 :=
  let v1 := cadd (scale v11 (fsub (Fin 1) fr)) (scale v21 fr) in
  let v2 := cadd (scale v12 (fsub (Fin 1) fr)) (scale v22 fr) in
  cadd (scale v1 (fsub (Fin 1) fz)) (scale v2 fz).

(** The Rankine part and the infinite-depth wave part of FinGreen3D's
    kernel, for real wave number [k]. *)
Definition Rankine (rr zf zp : float64) : float64 :=
  fadd
    (fdiv (Fin 1)
       (math.Sqrt (fadd (fmul rr rr) (fmul (fsub zf zp) (fsub zf zp)))))
    (fdiv (Fin 1)
       (math.Sqrt (fadd (fmul rr rr) (fmul (fadd zf zp) (fadd zf zp))))).

Definition InfiniteDepthWavePart (k zf zp : float64) : complex128 :=
  if feq k (Fin 0) then czero
  else if fgt (fmul k (fadd zf zp)) (Fin (-10))
       then complex (fmul (fmul (Fin 2) k) (math.Exp (fmul k (fadd zf zp))))
                    (Fin 0)
       else czero.

(** The evanescent root of mode [n] at depth [h]: [i n pi / h]. *)
Definition EvanescentRoot (h : float64) (n : Z) : complex128 :=
  complex (Fin 0) (fdiv (fmul (float64_of_int n) math.Pi) h).

End Spec.

(** ** Data used by the examples *)

(** The two-panel meshes of the package's tests. *)
Definition mesh_a : MeshLike :=
  mkMeshLike
    (mat.mkDense 2 3 [Fin 0; Fin 0; Fin 0; Fin 1; Fin 0; Fin 0])
    (mat.mkDense 2 3 [Fin 0; Fin 0; Fin 1; Fin 0; Fin 0; Fin 1])
    2.

Definition mesh_b : MeshLike :=
  mkMeshLike
    (mat.mkDense 2 3 [Fin 0; Fin 1; Fin 0; Fin 1; Fin 1; Fin 0])
    (mat.mkDense 2 3 [Fin 0; Fin 0; Fin 1; Fin 0; Fin 0; Fin 1])
    2.

(** The cache of [TestTabulationCache_Interpolate_Valid]: ranges
    [0, 1, 2] and [-2, -1, 0], corner values 1, 2, 3, 4, marked valid. *)
Definition test_cache : TabulationCache :=
  mkTabulationCache
    [Fin 0; Fin 1; Fin 2]
    [Fin (-2); Fin (-1); Fin 0]
    [ [complex (Fin 1) (Fin 0); complex (Fin 2) (Fin 0); czero];
      [complex (Fin 3) (Fin 0); complex (Fin 4) (Fin 0); czero];
      [czero; czero; czero] ]
    true Float64.



(** ** Notions used in the statements *)

(** The invariant of the data model that [NewTabulationCache] establishes:
    one row of values per depth coordinate, one column per distance
    coordinate. *)
Definition grid_shape (tc : TabulationCache) : Prop :=
  List.length (Values tc) = List.length (ZRange tc) /\
  Forall (fun row => List.length row = List.length (RRange tc)) (Values tc).

(** The number of panels (or of evaluation points) an argument stands for. *)
Definition panels (m : GoValue) : Z :=
  match m with
  | AsMeshLike mesh => GetNbFaces mesh
  | AsDense points => mat.d_rows points
  | AsOther => 0%Z
  end.

(** Any of the four strategies, with its receiver. *)
Inductive Strategy : Type :=
| UseDelhommeau (d : Delhommeau)
| UseFinGreen3D (fg : FinGreen3D)
| UseLiangWuNoblesseGF (lwn : LiangWuNoblesseGF)
| UseHAMS (h : HAMS).

(** What a call to [Evaluate] through the interface returns. *)
Definition Strategy_Evaluate (s : Strategy) (mesh1 mesh2 : GoValue)
    (freeSurface waterDepth : float64) (wavenumber : complex128)
    (adjointDoubleLayer earlyDotProduct : bool)
    : result (mat.CDense * mat.CDense) :=
  match s with
  | UseDelhommeau d =>
      snd (Evaluate d mesh1 mesh2 freeSurface waterDepth wavenumber
             adjointDoubleLayer earlyDotProduct)
  | UseFinGreen3D fg =>
      snd (Evaluate fg mesh1 mesh2 freeSurface waterDepth wavenumber
             adjointDoubleLayer earlyDotProduct)
  | UseLiangWuNoblesseGF lwn =>
      snd (Evaluate lwn mesh1 mesh2 freeSurface waterDepth wavenumber
             adjointDoubleLayer earlyDotProduct)
  | UseHAMS h =>
      snd (Evaluate h mesh1 mesh2 freeSurface waterDepth wavenumber
             adjointDoubleLayer earlyDotProduct)
  end.

Definition Strategy_base (s : Strategy) : BaseGreenFunction :=
  match s with
  | UseDelhommeau d => d_base d
  | UseFinGreen3D fg => fg_base fg
  | UseLiangWuNoblesseGF lwn => lwn_base lwn
  | UseHAMS h => hams_base h
  end.

(** The part common to the four methods, once the strategy's own checks
    have passed. *)
Definition assemble (bgf : BaseGreenFunction) (mesh1 mesh2 : GoValue)
    (adjointDoubleLayer earlyDotProduct : bool)
    : result (mat.CDense * mat.CDense) :=
  '(colocationPoints, earlyDotProductNormals) <-
    getColocationPointsAndNormals bgf mesh1 mesh2 adjointDoubleLayer ;;
  '(rows, cols) <- matrixDimensions mesh1 mesh2 ;;
  '(matS, matK) <- initMatrices bgf rows cols earlyDotProduct ;;
  Ok (matS, matK).

(** The modes [n, n+1, ...], [count] of them. *)
Fixpoint modes (count : nat) (n : Z) : list Z :=
  match count with
  | O => []
  | S count' => n :: modes count' (n + 1)%Z
  end.

(** Strictly increasing coordinates, the invariant of both ranges of a
    tabulation grid. *)
Fixpoint increasing (arr : list float64) : Prop :=
  match arr with
  | a :: (b :: _) as rest => flt a b = true /\ increasing rest
  | _ => True
  end.

(** A value lies within the closed interval spanned by a range. *)
Definition within (arr : list float64) (val : float64) : Prop :=
  fle (hd NaN arr) val = true /\ fle val (last arr NaN) = true.

(** The test that guards the interpolation. *)
Definition outside_grid (tc : TabulationCache) (r z : float64) : bool :=
  (findIndex (RRange tc) r <? 0)%Z
  || (len (RRange tc) - 1 <=? findIndex (RRange tc) r)%Z
  || (findIndex (ZRange tc) z <? 0)%Z
  || (len (ZRange tc) - 1 <=? findIndex (ZRange tc) z)%Z.

(** The width factor of K: 1 with the early dot product, 3 without. *)
(** One pass of the loop body of [ComputeWaveNumber] at the estimate [k]:
    whether one of its two [break]s is taken, and the estimate the pass
    assigns to [k] otherwise. *)
Definition newton_breaks (v waterDepth k : float64) : bool :=
  let tanh_kh := math.Tanh (fmul k waterDepth) in
  let sech2_kh := fsub (Fin 1) (fmul tanh_kh tanh_kh) in
  let f := fsub (fmul k tanh_kh) v in
  let df := fadd tanh_kh (fmul (fmul k waterDepth) sech2_kh) in
  flt (math.Abs df) (Fin 1e-15)
  || flt (math.Abs (fsub (fsub k (fdiv f df)) k)) (Fin 1e-12).

Definition newton_next (v waterDepth k : float64) : float64 :=
  let tanh_kh := math.Tanh (fmul k waterDepth) in
  let sech2_kh := fsub (Fin 1) (fmul tanh_kh tanh_kh) in
  let f := fsub (fmul k tanh_kh) v in
  let df := fadd tanh_kh (fmul (fmul k waterDepth) sech2_kh) in
  fsub k (fdiv f df).


Definition kWidth (earlyDotProduct : bool) : Z :=
  if earlyDotProduct then 1%Z else 3%Z.

Definition all_zero (m : mat.CDense) : Prop :=
  Forall (fun v => v = czero) (mat.c_data m).

(** ** Further functions of the package *)

(** A Go [[3]float64]. *)
Definition point : Type := (float64 * float64 * float64)%type.

Definition px (p : point) : float64 := fst (fst p).
Definition py (p : point) : float64 := snd (fst p).
Definition pz (p : point) : float64 := snd p.

Definition finite_point (x y z : R) : point := (Fin x, Fin y, Fin z).

(** The opposite vector. *)
Definition negate (p : point) : point :=
  (fneg (px p), fneg (py p), fneg (pz p)).

Definition ComputeDistance (p1 p2 : point) : float64 :=
  let dx := fsub (px p1) (px p2) in
  let dy := fsub (py p1) (py p2) in
  let dz := fsub (pz p1) (pz p2) in
  math.Sqrt (fadd (fadd (fmul dx dx) (fmul dy dy)) (fmul dz dz)).

Definition ComputeHorizontalDistance (p1 p2 : point) : float64 :=
  let dx := fsub (px p1) (px p2) in
  let dy := fsub (py p1) (py p2) in
  math.Sqrt (fadd (fmul dx dx) (fmul dy dy)).

Definition RankineSource (r : float64) : float64 :=
  if feq r (Fin 0) then math.Inf 1 else fdiv (Fin 1) r.

Definition RankineSourceGradient (p1 p2 : point) : point :=
  let dx := fsub (px p1) (px p2) in
  let dy := fsub (py p1) (py p2) in
  let dz := fsub (pz p1) (pz p2) in
  let r := math.Sqrt (fadd (fadd (fmul dx dx) (fmul dy dy)) (fmul dz dz)) in
  if feq r (Fin 0) then (math.Inf 1, math.Inf 1, math.Inf 1)
  else
    let r3 := fmul (fmul r r) r in
    (fdiv (fneg dx) r3, fdiv (fneg dy) r3, fdiv (fneg dz) r3).

(** The functions of package [math/cmplx] and the quotient of two
    [complex128] the package uses.  They are Go's, not the repository's, and
    are taken as given. *)
Class Cmplx : Type :=
  { cmplx_Tanh : complex128 -> complex128;
    cmplx_Exp : complex128 -> complex128;
    cmplx_Cosh : complex128 -> complex128;
    cmplx_Cos : complex128 -> complex128;
    cmplx_Sqrt : complex128 -> complex128;
    cmplx_Abs : complex128 -> float64;
    cquo : complex128 -> complex128 -> complex128 }.

Definition DispersionRelation `{Cmplx} (k : complex128)
    (omega waterDepth : float64) : complex128 :=
  let v := complex (fdiv (fmul omega omega) Gravity) (Fin 0) in
  let kh := cmul k (complex waterDepth (Fin 0)) in
  if math.IsInf waterDepth 1 then csub k v
  else csub (cmul k (cmplx_Tanh kh)) v.

Record PronyDecomposition : Type := mkPronyDecomposition
  { Coefficients : list complex128;
    Exponents : list complex128 }.

Definition NewPronyDecomposition (coeffs exps : list complex128)
    : PronyDecomposition :=
  mkPronyDecomposition coeffs exps.

(** [for i := range pd.Coefficients { result += ... }]: [coeffs] is what is
    left of the coefficients, [i] the position of its head. *)
Fixpoint Prony_loop `{Cmplx} (coeffs : list complex128) (i : Z)
    (exps : list complex128) (x : float64) (acc : complex128)
    : result complex128 :=
  match coeffs with
  | [] => Ok acc
  | c :: rest =>
      e <- index exps i ;;
      Prony_loop rest (i + 1)%Z exps x
        (cadd acc (cmul c (cmplx_Exp (cmul e (complex x (Fin 0))))))
  end.

Definition PronyDecomposition_Evaluate `{Cmplx} (pd : PronyDecomposition)
    (x : float64) : result complex128 :=
  Prony_loop (Coefficients pd) 0%Z (Exponents pd) x czero.

Definition computeWaveTerm `{Cmplx} (fg : FinGreen3D) (rr zf zp : float64)
    (k : complex128) (isPropagating : bool) : complex128 :=
  let h := waterDepth fg in
  let '(phi1, phi2) :=
    if isPropagating then
      let coshKZ1 := cmplx_Cosh (cmul k (complex (fadd zf h) (Fin 0))) in
      let coshKZ2 := cmplx_Cosh (cmul k (complex (fadd zp h) (Fin 0))) in
      let coshKH := cmplx_Cosh (cmul k (complex h (Fin 0))) in
      (cquo coshKZ1 coshKH, cquo coshKZ2 coshKH)
    else
      let cosKZ1 := cmplx_Cos (cmul k (complex (fadd zf h) (Fin 0))) in
      let cosKZ2 := cmplx_Cos (cmul k (complex (fadd zp h) (Fin 0))) in
      let cosKH := cmplx_Cos (cmul k (complex h (Fin 0))) in
      (cquo cosKZ1 cosKH, cquo cosKZ2 cosKH) in
  let kr := cmul k (complex rr (Fin 0)) in
  let horizontalFunc :=
    if flt (cmplx_Abs kr) (Fin 0.1) then complex (Fin 1) (Fin 0)
    else cquo (cmplx_Exp (cmul (complex (Fin 0) (Fin 1)) kr))
              (cmplx_Sqrt kr) in
  cmul (cmul phi1 phi2) horizontalFunc.

(** [for i, root := range fg.dispersionRoots { ... }]: [roots] is what is
    left of the family, [i] the position of its head. *)
Fixpoint waveSum `{Cmplx} (fg : FinGreen3D) (rr zf zp : float64)
    (roots : list complex128) (i : Z) (wavePart : complex128) : complex128 :=
  match roots with
  | [] => wavePart
  | root :: rest =>
      let wavePart :=
        if (i =? 0)%Z then
          let k := root in
          if fgt (real k) (Fin 0)
          then cadd wavePart (computeWaveTerm fg rr zf zp k true)
          else wavePart
        else
          let kn := root in
          cadd wavePart (computeWaveTerm fg rr zf zp kn false) in
      waveSum fg rr zf zp rest (i + 1)%Z wavePart
  end.

Definition computeFiniteDepthGF `{Cmplx} (fg : FinGreen3D)
    (rr zf zp : float64) : result complex128 :=
  let r := math.Sqrt (fadd (fmul rr rr) (fmul (fsub zf zp) (fsub zf zp))) in
  let rPrime :=
    math.Sqrt (fadd (fmul rr rr) (fmul (fadd zf zp) (fadd zf zp))) in
  let rankine := fadd (fdiv (Fin 1) r) (fdiv (Fin 1) rPrime) in
  let wavePart := waveSum fg rr zf zp (dispersionRoots fg) 0%Z czero in
  Ok (cadd (complex rankine (Fin 0)) wavePart).

Definition computeGreenFunction3D `{Cmplx} (fg : FinGreen3D)
    (rr zf zp : float64) : result complex128 :=
  if math.IsInf (waterDepth fg) 1 then computeInfiniteDepthGF fg rr zf zp
  else computeFiniteDepthGF fg rr zf zp.

(** Values that are real numbers (neither infinite nor NaN). *)
Definition is_finite (f : float64) : Prop :=
  match f with Fin _ => True | _ => False end.

Definition is_finite_c (c : complex128) : Prop :=
  is_finite (real c) /\ is_finite (imag c).

(** Real numbers of magnitude at most [bound]. *)
Definition magnitude_le (bound : R) (f : float64) : Prop :=
  match f with Fin x => Rabs x <= bound | _ => False end.

(** Position [m] of a range brackets a value. *)
Definition brackets (arr : list float64) (val : float64) (m : nat) : Prop :=
  exists a b,
    nth_error arr m = Some a /\ nth_error arr (S m) = Some b /\
    fle a val = true /\ fle val b = true.

(** The check a strategy makes of the physical parameters before it
    assembles anything: only LiangWuNoblesseGF has one. *)
Definition own_check (s : Strategy) (freeSurface waterDepth : float64)
    : bool :=
  match s with
  | UseLiangWuNoblesseGF _ =>
      negb (math.IsInf freeSurface 1 || negb (math.IsInf waterDepth 1))
  | _ => true
  end.

Definition is_mesh (m : GoValue) : bool :=
  match m with AsMeshLike _ => true | _ => false end.

(** * Properties *)

(** ** Results and slices *)

Lemma bind_Ok {A B : Type} (m : result A) (k : A -> result B) (b : B) :
  bind m k = Ok b -> exists a, m = Ok a /\ k a = Ok b.
Proof.
  destruct m as [a | e | msg]; simpl; intros H; try discriminate.
  exists a; auto.
Qed.

Lemma index_Ok {A : Type} (s : list A) (i : Z) (x : A) :
  index s i = Ok x <-> (0 <= i)%Z /\ nth_error s (Z.to_nat i) = Some x.
Proof.
  unfold index. destruct (Z.ltb_spec i 0).
  - split; [discriminate | lia].
  - destruct (nth_error s (Z.to_nat i)) eqn:E; split; intros H1;
      try discriminate.
    + inversion H1; subst; auto.
    + destruct H1 as [_ H1]; inversion H1; subst; auto.
    + destruct H1 as [_ H1]; discriminate.
Qed.

Lemma index_in_range {A : Type} (s : list A) (i : Z) :
  (0 <= i < len s)%Z -> exists x, index s i = Ok x.
Proof.
  unfold len; intros H. unfold index.
  destruct (Z.ltb_spec i 0); [lia |].
  destruct (nth_error s (Z.to_nat i)) eqn:E; [eauto |].
  apply nth_error_None in E. lia.
Qed.

Lemma nth_error_repeat_Some {A : Type} (a x : A) (n i : nat) :
  nth_error (repeat a n) i = Some x -> x = a.
Proof.
  intros H. apply nth_error_In in H. apply repeat_spec in H. exact H.
Qed.

Lemma nth_error_repeat_lt {A : Type} (a : A) (n i : nat) :
  (i < n)%nat -> nth_error (repeat a n) i = Some a.
Proof.
  revert i; induction n as [| n IH]; intros [| i] H; simpl; try lia; auto.
  apply IH; lia.
Qed.

Lemma Forall_repeat {A : Type} (P : A -> Prop) (a : A) (n : nat) :
  P a -> Forall P (repeat a n).
Proof. intros H; induction n; simpl; constructor; auto. Qed.

(** ** Go's [int] *)

Lemma wrap_in_range (z : Z) : GoInt.in_range z -> GoInt.wrap z = z.
Proof.
  unfold GoInt.in_range, GoInt.min_int, GoInt.max_int, GoInt.wrap.
  intros H. rewrite Z.mod_small; lia.
Qed.

Lemma mul_exact (a b : Z) : GoInt.in_range (a * b) -> GoInt.mul a b = (a * b)%Z.
Proof. apply wrap_in_range. Qed.

(** ** gonum's constructors *)

Lemma check_dims_Ok (r c : Z) (u : unit) :
  mat.check_dims r c = Ok u -> (0 < r)%Z /\ (0 < c)%Z.
Proof.
  unfold mat.check_dims.
  destruct (Z.leb_spec r 0), (Z.leb_spec c 0); simpl;
    try (destruct ((r =? 0)%Z || (c =? 0)%Z); discriminate).
  intros _; lia.
Qed.

Lemma check_dims_positive (r c : Z) :
  (0 < r)%Z -> (0 < c)%Z -> mat.check_dims r c = Ok tt.
Proof.
  intros Hr Hc. unfold mat.check_dims.
  destruct (Z.leb_spec r 0), (Z.leb_spec c 0); simpl; auto; lia.
Qed.

Lemma check_dims_not_Err (r c : Z) (e : error) : mat.check_dims r c <> Err e.
Proof.
  unfold mat.check_dims.
  destruct ((r <=? 0)%Z || (c <=? 0)%Z); [| discriminate].
  destruct ((r =? 0)%Z || (c =? 0)%Z); discriminate.
Qed.

Lemma NewCDense_Ok (r c : Z) (m : mat.CDense) :
  mat.NewCDense r c = Ok m ->
  (0 < r)%Z /\ (0 < c)%Z /\ (0 <= GoInt.mul r c)%Z /\
  m = mat.mkCDense r c (repeat czero (Z.to_nat (GoInt.mul r c))).
Proof.
  unfold mat.NewCDense. intros H.
  apply bind_Ok in H as (u & Hd & H).
  apply check_dims_Ok in Hd as [Hr Hc].
  apply bind_Ok in H as (data & Hm & H).
  unfold mat.make in Hm.
  destruct (Z.ltb_spec (GoInt.mul r c) 0); [discriminate |].
  inversion Hm; subst data. inversion H; subst m. auto.
Qed.

Lemma NewCDense_positive (r c : Z) :
  (0 < r)%Z -> (0 < c)%Z -> (0 <= GoInt.mul r c)%Z ->
  mat.NewCDense r c =
  Ok (mat.mkCDense r c (repeat czero (Z.to_nat (GoInt.mul r c)))).
Proof.
  intros Hr Hc Hn. unfold mat.NewCDense.
  rewrite check_dims_positive by assumption. simpl.
  unfold mat.make. destruct (Z.ltb_spec (GoInt.mul r c) 0); [lia |].
  reflexivity.
Qed.

Lemma NewCDense_not_Err (r c : Z) (e : error) : mat.NewCDense r c <> Err e.
Proof.
  unfold mat.NewCDense.
  destruct (mat.check_dims r c) as [[] | e' | msg] eqn:E; simpl.
  - unfold mat.make. destruct (GoInt.mul r c <? 0)%Z; discriminate.
  - exfalso; eapply check_dims_not_Err; eauto.
  - discriminate.
Qed.

(** ** [initMatrices] *)

Lemma initMatrices_Ok (bgf : BaseGreenFunction) (rows cols : Z) (early : bool)
    (matS matK : mat.CDense) :
  initMatrices bgf rows cols early = Ok (matS, matK) ->
  mat.NewCDense rows cols = Ok matS /\
  mat.NewCDense rows (GoInt.mul cols (kWidth early)) = Ok matK.
Proof.
  unfold initMatrices, kWidth. intros H.
  apply bind_Ok in H as (s & Hs & H).
  apply bind_Ok in H as (k & Hk & H).
  inversion H; subst. auto.
Qed.

Lemma initMatrices_not_Err (bgf : BaseGreenFunction) (rows cols : Z)
    (early : bool) (e : error) :
  initMatrices bgf rows cols early <> Err e.
Proof.
  unfold initMatrices.
  destruct (mat.NewCDense rows cols) as [s | e' | msg] eqn:Es; simpl.
  - destruct (mat.NewCDense rows (GoInt.mul cols (if early then 1%Z else 3%Z)))
      as [k | e' | msg] eqn:Ek; simpl; try discriminate.
    exfalso; eapply NewCDense_not_Err; eauto.
  - exfalso; eapply NewCDense_not_Err; eauto.
  - discriminate.
Qed.

Lemma initMatrices_shape (bgf : BaseGreenFunction) (rows cols : Z)
    (early : bool) (matS matK : mat.CDense) :
  initMatrices bgf rows cols early = Ok (matS, matK) ->
  (0 < rows)%Z /\ (0 < cols)%Z /\
  matS = mat.mkCDense rows cols
           (repeat czero (Z.to_nat (GoInt.mul rows cols))) /\
  matK = mat.mkCDense rows (GoInt.mul cols (kWidth early))
           (repeat czero
              (Z.to_nat (GoInt.mul rows (GoInt.mul cols (kWidth early))))).
Proof.
  intros H. apply initMatrices_Ok in H as [Hs Hk].
  apply NewCDense_Ok in Hs as (Hr & Hc & _ & Hs).
  apply NewCDense_Ok in Hk as (_ & _ & _ & Hk).
  auto.
Qed.

Lemma At_repeat_zero (r c : Z) (n : nat) (i j : Z) (v : complex128) :
  mat.At (mat.mkCDense r c (repeat czero n)) i j = Ok v -> v = czero.
Proof.
  unfold mat.At; simpl.
  destruct ((i <? 0)%Z || (r <=? i)%Z); [discriminate |].
  destruct ((j <? 0)%Z || (c <=? j)%Z); [discriminate |].
  intros H. apply index_Ok in H as [_ H].
  eapply nth_error_repeat_Some; eauto.
Qed.

Lemma At_repeat_in_range (r c i j : Z) :
  (0 <= i < r)%Z -> (0 <= j < c)%Z ->
  mat.At (mat.mkCDense r c (repeat czero (Z.to_nat (r * c)))) i j = Ok czero.
Proof.
  intros Hi Hj. unfold mat.At; simpl.
  destruct (Z.ltb_spec i 0); [lia |].
  destruct (Z.leb_spec r i); [lia |]. simpl.
  destruct (Z.ltb_spec j 0); [lia |].
  destruct (Z.leb_spec c j); [lia |]. simpl.
  apply index_Ok. split; [nia |].
  apply nth_error_repeat_lt. nia.
Qed.

(** ** The four [Evaluate] methods *)

Lemma matrixDimensions_Ok (mesh1 mesh2 : GoValue) (rows cols : Z) :
  matrixDimensions mesh1 mesh2 = Ok (rows, cols) ->
  rows = panels mesh1 /\ cols = panels mesh2 /\
  exists m2, mesh2 = AsMeshLike m2.
Proof.
  unfold matrixDimensions, panels.
  destruct mesh2 as [m2 | d2 |]; try discriminate.
  intros H; inversion H; subst.
  destruct mesh1; simpl; eauto.
Qed.

Lemma assemble_Ok (bgf : BaseGreenFunction) (mesh1 mesh2 : GoValue)
    (adj early : bool) (matS matK : mat.CDense) :
  assemble bgf mesh1 mesh2 adj early = Ok (matS, matK) ->
  (exists pn, getColocationPointsAndNormals bgf mesh1 mesh2 adj = Ok pn) /\
  (exists m2, mesh2 = AsMeshLike m2) /\
  initMatrices bgf (panels mesh1) (panels mesh2) early = Ok (matS, matK).
Proof.
  unfold assemble. intros H.
  apply bind_Ok in H as ([pts nrm] & Hp & H).
  apply bind_Ok in H as ([rows cols] & Hd & H).
  apply bind_Ok in H as ([s k] & Hi & H).
  inversion H; subst.
  apply matrixDimensions_Ok in Hd as (-> & -> & Hm).
  eauto.
Qed.

Lemma Strategy_Evaluate_assemble (s : Strategy) (mesh1 mesh2 : GoValue)
    (fs wd : float64) (k : complex128) (adj early : bool)
    (matS matK : mat.CDense) :
  Strategy_Evaluate s mesh1 mesh2 fs wd k adj early = Ok (matS, matK) ->
  assemble (Strategy_base s) mesh1 mesh2 adj early = Ok (matS, matK).
Proof.
  destruct s as [d | fg | lwn | h]; simpl.
  - auto.
  - unfold FinGreen3D_Evaluate, SetWaveNumber, computeDispersionRoots.
    simpl. destruct (fne wd (waterDepth fg)); simpl; auto.
  - unfold LiangWuNoblesseGF_Evaluate.
    destruct (math.IsInf fs 1 || negb (math.IsInf wd 1)); [discriminate |].
    auto.
  - auto.
Qed.

Lemma Strategy_Evaluate_Ok (s : Strategy) (mesh1 mesh2 : GoValue)
    (fs wd : float64) (k : complex128) (adj early : bool)
    (matS matK : mat.CDense) :
  Strategy_Evaluate s mesh1 mesh2 fs wd k adj early = Ok (matS, matK) ->
  initMatrices (Strategy_base s) (panels mesh1) (panels mesh2) early
  = Ok (matS, matK).
Proof.
  intros H. apply Strategy_Evaluate_assemble in H.
  now apply assemble_Ok in H as (_ & _ & H).
Qed.

Lemma initMatrices_positive (bgf : BaseGreenFunction) (rows cols : Z)
    (early : bool) :
  (0 < rows)%Z -> (0 < cols)%Z -> (0 <= GoInt.mul rows cols)%Z ->
  (0 < GoInt.mul cols (kWidth early))%Z ->
  (0 <= GoInt.mul rows (GoInt.mul cols (kWidth early)))%Z ->
  initMatrices bgf rows cols early =
  Ok (mat.mkCDense rows cols
        (repeat czero (Z.to_nat (GoInt.mul rows cols))),
      mat.mkCDense rows (GoInt.mul cols (kWidth early))
        (repeat czero
           (Z.to_nat (GoInt.mul rows (GoInt.mul cols (kWidth early)))))).
Proof.
  intros Hr Hc Hn Hk Hm. unfold initMatrices. fold (kWidth early).
  rewrite (NewCDense_positive rows cols) by assumption.
  unfold bind at 1.
  rewrite (NewCDense_positive rows (GoInt.mul cols (kWidth early)))
    by assumption.
  reflexivity.
Qed.

(** ** Matrix allocation does not validate its dimensions *)

(** C1.  [initMatrices] is expected to fail with a dimension error for
    non-positive or oversized dimensions.  It does not: at 2,000,000 x 10,
    where [ValidateMatrixDimensions] reports "Matrix dimensions too large",
    [initMatrices] allocates and returns both matrices; at 0 x 5, where the
    validator reports "Matrix dimensions must be positive", the call ends in
    gonum's panic; and no input at all makes [initMatrices] return an
    error. *)
Theorem initMatrices_never_reports_a_dimension_error :
  ValidateMatrixDimensions 2000000 10
    = Some (GreenFunctionEvaluationError "Matrix dimensions too large") /\
  (exists matS matK,
     initMatrices NewBaseGreenFunction 2000000 10 true = Ok (matS, matK) /\
     mat.CDims matS = (2000000, 10)%Z /\ mat.CDims matK = (2000000, 10)%Z) /\
  ValidateMatrixDimensions 0 5
    = Some (GreenFunctionEvaluationError "Matrix dimensions must be positive") /\
  initMatrices NewBaseGreenFunction 0 5 true = Panic mat.ErrZeroLength /\
  (forall bgf rows cols early e, initMatrices bgf rows cols early <> Err e).
Proof.
  split; [reflexivity |].
  split.
  - do 2 eexists. split.
    + apply initMatrices_positive; vm_compute; congruence.
    + split; reflexivity.
  - split; [reflexivity |]. split; [reflexivity |].
    intros; apply initMatrices_not_Err.
Qed.

(** ** Every strategy returns the matrices as allocated *)

(** C2.  Whenever [Evaluate] succeeds, on any of the four strategies, the
    matrices it returns are the ones [initMatrices] allocated for the panel
    counts of the two arguments, every stored entry of S and of K is 0+0i,
    any entry [At] can read is 0+0i, and when the element count fits a Go
    [int] every entry within the dimensions reads as 0+0i. *)
Theorem Evaluate_returns_zero_matrices (s : Strategy) (mesh1 mesh2 : GoValue)
    (freeSurface waterDepth : float64) (wavenumber : complex128)
    (adjointDoubleLayer earlyDotProduct : bool) (matS matK : mat.CDense) :
  Strategy_Evaluate s mesh1 mesh2 freeSurface waterDepth wavenumber
    adjointDoubleLayer earlyDotProduct = Ok (matS, matK) ->
  initMatrices (Strategy_base s) (panels mesh1) (panels mesh2) earlyDotProduct
    = Ok (matS, matK) /\
  all_zero matS /\ all_zero matK /\
  (forall i j v, mat.At matS i j = Ok v -> v = czero) /\
  (forall i j v, mat.At matK i j = Ok v -> v = czero) /\
  (GoInt.in_range (mat.c_rows matS * mat.c_cols matS) ->
   forall i j, (0 <= i < mat.c_rows matS)%Z -> (0 <= j < mat.c_cols matS)%Z ->
               mat.At matS i j = Ok czero) /\
  (GoInt.in_range (mat.c_rows matK * mat.c_cols matK) ->
   forall i j, (0 <= i < mat.c_rows matK)%Z -> (0 <= j < mat.c_cols matK)%Z ->
               mat.At matK i j = Ok czero).
Proof.
  intros H. apply Strategy_Evaluate_Ok in H.
  split; [exact H |].
  apply initMatrices_shape in H as (Hr & Hc & -> & ->).
  unfold all_zero; simpl.
  repeat split.
  - apply Forall_repeat; reflexivity.
  - apply Forall_repeat; reflexivity.
  - intros i j v; apply At_repeat_zero.
  - intros i j v; apply At_repeat_zero.
  - intros Hin i j Hi Hj. rewrite (mul_exact _ _ Hin).
    now apply At_repeat_in_range.
  - intros Hin i j Hi Hj. rewrite (mul_exact _ _ Hin).
    now apply At_repeat_in_range.
Qed.

(** The Delhommeau strategy on the two-panel test meshes: the call succeeds
    and returns 2 x 2 matrices of zeros. *)
Lemma Evaluate_returns_zero_matrices_witness :
  let zeros := mat.mkCDense 2 2 [czero; czero; czero; czero] in
  all_zero zeros /\
  forall i j, (0 <= i < 2)%Z -> (0 <= j < 2)%Z -> mat.At zeros i j = Ok czero.
Proof.
  intros zeros.
  destruct (Evaluate_returns_zero_matrices
              (UseDelhommeau (NewDelhommeau DefaultDelhommeauParameters))
              (AsMeshLike mesh_a) (AsMeshLike mesh_b)
              (Fin 0) PInf (complex (Fin 1) (Fin 0)) true true zeros zeros
              eq_refl)
    as (_ & Hz & _ & _ & _ & Hat & _).
  split; [exact Hz |].
  apply Hat. unfold GoInt.in_range, GoInt.min_int, GoInt.max_int; simpl; lia.
Defined.

(** ** Shape of the returned matrices *)

Lemma positive_products_fit (rows cols w : Z) :
  (0 < rows)%Z -> (0 < cols)%Z -> (1 <= w)%Z ->
  (rows * (cols * w) <= GoInt.max_int)%Z ->
  GoInt.mul rows cols = (rows * cols)%Z /\
  GoInt.mul cols w = (cols * w)%Z /\
  GoInt.mul rows (cols * w) = (rows * (cols * w))%Z.
Proof.
  intros Hr Hc Hw Hmax.
  assert (Hcw : (cols <= cols * w)%Z) by nia.
  assert (Hrc : (rows * cols <= rows * (cols * w))%Z) by nia.
  assert (Hcw' : (cols * w <= rows * (cols * w))%Z) by nia.
  assert (Hpos : (0 < rows * cols)%Z) by nia.
  unfold GoInt.mul.
  repeat split; apply wrap_in_range;
    unfold GoInt.in_range, GoInt.min_int, GoInt.max_int in *; lia.
Qed.




(** ** The domain check of LiangWuNoblesseGF *)

Lemma IsInf_positive (f : float64) : math.IsInf f 1 = true <-> f = PInf.
Proof.
  destruct f; unfold math.IsInf; split; intros H;
    try discriminate; try reflexivity.
Qed.

Lemma IsInf_positive_false (f : float64) :
  math.IsInf f 1 = false <-> f <> PInf.
Proof.
  rewrite <- IsInf_positive. destruct (math.IsInf f 1); split; congruence.
Qed.

Lemma NewDense_not_Err (r c : Z) (e : error) : mat.NewDense r c <> Err e.
Proof.
  unfold mat.NewDense.
  destruct (mat.check_dims r c) as [[] | e' | msg] eqn:E; simpl.
  - unfold mat.make. destruct (GoInt.mul r c <? 0)%Z; discriminate.
  - exfalso; eapply check_dims_not_Err; eauto.
  - discriminate.
Qed.

Lemma getColocationPointsAndNormals_not_domainError
    (bgf : BaseGreenFunction) (mesh1 mesh2 : GoValue) (adj : bool) :
  getColocationPointsAndNormals bgf mesh1 mesh2 adj
  <> Err LiangWuNoblesseGF_domainError.
Proof.
  unfold getColocationPointsAndNormals, LiangWuNoblesseGF_domainError.
  destruct mesh1 as [m1 | d1 |]; [| | discriminate].
  - destruct adj; simpl; [discriminate |].
    destruct mesh2; discriminate.
  - destruct (mat.Dims d1) as [rows cols].
    destruct (negb (cols =? 3)%Z); [discriminate |].
    destruct adj; simpl.
    + destruct (mat.NewDense rows 3) as [n | e | msg] eqn:E; simpl;
        try discriminate.
      exfalso; eapply NewDense_not_Err; eauto.
    + destruct mesh2; discriminate.
Qed.

Lemma assemble_not_domainError (bgf : BaseGreenFunction)
    (mesh1 mesh2 : GoValue) (adj early : bool) :
  assemble bgf mesh1 mesh2 adj early <> Err LiangWuNoblesseGF_domainError.
Proof.
  unfold assemble.
  destruct (getColocationPointsAndNormals bgf mesh1 mesh2 adj)
    as [[pts nrm] | e | msg] eqn:Ep; simpl.
  - destruct (matrixDimensions mesh1 mesh2) as [[rows cols] | e | msg] eqn:Ed;
      simpl.
    + destruct (initMatrices bgf rows cols early) as [[s k] | e | msg] eqn:Ei;
        simpl; try discriminate.
      exfalso; eapply initMatrices_not_Err; eauto.
    + unfold matrixDimensions in Ed. destruct mesh2; try discriminate;
        inversion Ed; discriminate.
    + discriminate.
  - intros H; inversion H; subst.
    eapply getColocationPointsAndNormals_not_domainError; eauto.
  - discriminate.
Qed.

Lemma LiangWuNoblesseGF_Evaluate_cases (lwn : LiangWuNoblesseGF)
    (mesh1 mesh2 : GoValue) (fs wd : float64) (k : complex128)
    (adj early : bool) :
  LiangWuNoblesseGF_Evaluate lwn mesh1 mesh2 fs wd k adj early =
  if math.IsInf fs 1 || negb (math.IsInf wd 1)
  then Err LiangWuNoblesseGF_domainError
  else assemble (lwn_base lwn) mesh1 mesh2 adj early.
Proof. reflexivity. Qed.

(** C5.  [LiangWuNoblesseGF.Evaluate] returns its domain-constraint error
    exactly when the free surface is +Inf or the water depth is not +Inf; for
    a water depth in the interface's range (finite or +Inf) that is: exactly
    when the free surface is +Inf or the water depth is finite.  It rejects
    (+Inf, +Inf) and (0, 10); at (0, +Inf) the check passes and the call is
    the mesh extraction and allocation common to all strategies, which
    succeeds on the two-panel test meshes. *)
Theorem LiangWuNoblesseGF_domain_constraint (lwn : LiangWuNoblesseGF)
    (mesh1 mesh2 : GoValue) (fs wd : float64) (k : complex128)
    (adj early : bool) :
  (LiangWuNoblesseGF_Evaluate lwn mesh1 mesh2 fs wd k adj early
     = Err LiangWuNoblesseGF_domainError
   <-> math.IsInf fs 1 = true \/ math.IsInf wd 1 = false) /\
  ((wd = PInf \/ exists h, wd = Fin h) ->
   (LiangWuNoblesseGF_Evaluate lwn mesh1 mesh2 fs wd k adj early
      = Err LiangWuNoblesseGF_domainError
    <-> fs = PInf \/ exists h, wd = Fin h)) /\
  LiangWuNoblesseGF_Evaluate lwn mesh1 mesh2 PInf PInf k adj early
    = Err LiangWuNoblesseGF_domainError /\
  LiangWuNoblesseGF_Evaluate lwn mesh1 mesh2 (Fin 0) (Fin 10) k adj early
    = Err LiangWuNoblesseGF_domainError /\
  LiangWuNoblesseGF_Evaluate lwn mesh1 mesh2 (Fin 0) PInf k adj early
    = assemble (lwn_base lwn) mesh1 mesh2 adj early /\
  LiangWuNoblesseGF_Evaluate lwn mesh1 mesh2 (Fin 0) PInf k adj early
    <> Err LiangWuNoblesseGF_domainError /\
  is_Ok (LiangWuNoblesseGF_Evaluate NewLiangWuNoblesseGF
           (AsMeshLike mesh_a) (AsMeshLike mesh_b) (Fin 0) PInf
           (complex (Fin 1) (Fin 0)) true true).
Proof.
  assert (Hexact :
    LiangWuNoblesseGF_Evaluate lwn mesh1 mesh2 fs wd k adj early
      = Err LiangWuNoblesseGF_domainError
    <-> math.IsInf fs 1 = true \/ math.IsInf wd 1 = false).
  { rewrite LiangWuNoblesseGF_Evaluate_cases.
    destruct (math.IsInf fs 1); simpl.
    - split; auto.
    - destruct (math.IsInf wd 1); simpl.
      + split; [intros H | intros [H | H]; discriminate].
        exfalso; eapply assemble_not_domainError; eauto.
      + split; auto. }
  split; [exact Hexact |].
  split.
  - intros Hwd. rewrite Hexact, IsInf_positive, IsInf_positive_false.
    destruct Hwd as [-> | [h ->]].
    + split; intros [H | H]; auto.
      * congruence.
      * destruct H as [h H]; discriminate.
    + split; intros _; right; [eauto | discriminate].
  - repeat split; try reflexivity.
    rewrite LiangWuNoblesseGF_Evaluate_cases; simpl.
    apply assemble_not_domainError.
Qed.

(** ** Comparisons and arithmetic on finite values *)

Lemma Rltb_spec (x y : R) : reflect (x < y) (Rltb x y).
Proof. unfold Rltb; destruct (Rlt_dec x y); constructor; assumption. Qed.

Lemma Rleb_spec (x y : R) : reflect (x <= y) (Rleb x y).
Proof. unfold Rleb; destruct (Rle_dec x y); constructor; assumption. Qed.

Lemma Reqb_spec (x y : R) : reflect (x = y) (Reqb x y).
Proof. unfold Reqb; destruct (Req_dec_T x y); constructor; assumption. Qed.

Lemma Rltb_true (x y : R) : x < y -> Rltb x y = true.
Proof. intros H; destruct (Rltb_spec x y); [reflexivity | contradiction]. Qed.

Lemma Rltb_false (x y : R) : y <= x -> Rltb x y = false.
Proof. intros H; destruct (Rltb_spec x y); [lra | reflexivity]. Qed.

Lemma Rleb_true (x y : R) : x <= y -> Rleb x y = true.
Proof. intros H; destruct (Rleb_spec x y); [reflexivity | contradiction]. Qed.

Lemma Rleb_false (x y : R) : y < x -> Rleb x y = false.
Proof. intros H; destruct (Rleb_spec x y); [lra | reflexivity]. Qed.

Lemma Reqb_true (x y : R) : x = y -> Reqb x y = true.
Proof. intros H; destruct (Reqb_spec x y); [reflexivity | contradiction]. Qed.

Lemma Reqb_false (x y : R) : x <> y -> Reqb x y = false.
Proof. intros H; destruct (Reqb_spec x y); [contradiction | reflexivity]. Qed.

Lemma fdiv_Fin (x y : R) : y <> 0 -> fdiv (Fin x) (Fin y) = Fin (x / y).
Proof. intros H; simpl. now rewrite Reqb_false. Qed.

Lemma fadd_zero_r (a : float64) : fadd a (Fin 0) = a.
Proof. destruct a; simpl; auto. now rewrite Rplus_0_r. Qed.

Lemma cadd_zero_r (c : complex128) : cadd c czero = c.
Proof.
  destruct c as [re im]. unfold cadd, czero, complex, real, imag; simpl fst;
    simpl snd.
  now rewrite !fadd_zero_r.
Qed.

(** ** FinGreen3D's dispersion roots *)

Lemma appendEvanescent_modes (count : nat) (n : Z) (h : float64)
    (roots : list complex128) :
  appendEvanescent count n h roots
  = roots ++ map (Spec.EvanescentRoot h) (modes count n).
Proof.
  revert n roots; induction count as [| count IH]; intros n roots; simpl.
  - now rewrite app_nil_r.
  - rewrite IH, <- app_assoc. reflexivity.
Qed.

Lemma EvanescentRoot_real (h : R) (n : Z) :
  h <> 0 ->
  Spec.EvanescentRoot (Fin h) n = complex (Fin 0) (Fin (IZR n * PI / h)).
Proof.
  intros Hh. unfold Spec.EvanescentRoot, float64_of_int, math.Pi.
  simpl fmul. now rewrite fdiv_Fin.
Qed.

(** C8.  The root family FinGreen3D computes from a wave number [k0] and its
    water depth: its first element is [k0]; for a finite depth [h] it is
    [k0] followed by exactly the ten roots [i n pi / h], [n = 1..10], in
    order (as the quotient of floats, which for [h <> 0] is the real quotient
    [n pi / h]); for an infinite depth (+Inf) it is [k0] alone.
    [SetWaveNumber] stores exactly this family in the strategy. *)
Theorem computeDispersionRoots_family (fg : FinGreen3D) (k0 : complex128) :
  (exists rest, computeDispersionRoots fg k0 = Ok (k0 :: rest)) /\
  (forall h, waterDepth fg = Fin h ->
     computeDispersionRoots fg k0
     = Ok (k0 :: map (Spec.EvanescentRoot (Fin h))
                   [1; 2; 3; 4; 5; 6; 7; 8; 9; 10]%Z)) /\
  (forall h, waterDepth fg = Fin h -> h <> 0 ->
     computeDispersionRoots fg k0
     = Ok (k0 :: map (fun n => complex (Fin 0) (Fin (IZR n * PI / h)))
                   [1; 2; 3; 4; 5; 6; 7; 8; 9; 10]%Z)) /\
  (waterDepth fg = PInf -> computeDispersionRoots fg k0 = Ok [k0]) /\
  (forall roots, computeDispersionRoots fg k0 = Ok roots ->
     dispersionRoots (fst (SetWaveNumber fg k0)) = roots /\
     waveNumber (fst (SetWaveNumber fg k0)) = k0 /\
     snd (SetWaveNumber fg k0) = Ok tt).
Proof.
  assert (Hfin : forall h, waterDepth fg = Fin h ->
     computeDispersionRoots fg k0
     = Ok (k0 :: map (Spec.EvanescentRoot (Fin h))
                   [1; 2; 3; 4; 5; 6; 7; 8; 9; 10]%Z)).
  { intros h Hh. unfold computeDispersionRoots. rewrite Hh.
    unfold math.IsInf, negb. rewrite appendEvanescent_modes. reflexivity. }
  assert (Hset : forall roots, computeDispersionRoots fg k0 = Ok roots ->
            SetWaveNumber fg k0
            = (mkFinGreen3D (fg_base fg) (waterDepth fg) k0 roots, Ok tt)).
  { intros roots H. unfold SetWaveNumber.
    change (computeDispersionRoots
              (mkFinGreen3D (fg_base fg) (waterDepth fg) k0
                 (dispersionRoots fg)) k0)
      with (computeDispersionRoots fg k0).
    rewrite H. reflexivity. }
  split; [| split; [exact Hfin | split; [| split]]].
  - unfold computeDispersionRoots.
    destruct (negb (math.IsInf (waterDepth fg) 1)).
    + rewrite appendEvanescent_modes. simpl. eauto.
    + eauto.
  - intros h Hh Hnz. rewrite (Hfin h Hh). do 2 f_equal.
    apply map_ext. intros n. now apply EvanescentRoot_real.
  - intros Hinf. unfold computeDispersionRoots. rewrite Hinf. reflexivity.
  - intros roots H. rewrite (Hset roots H). simpl. auto.
Qed.

(** ** FinGreen3D's infinite-depth kernel *)

Lemma Sqrt_Fin (x : R) : 0 <= x -> math.Sqrt (Fin x) = Fin (sqrt x).
Proof. intros H; simpl. now rewrite Rltb_false. Qed.

Lemma Rankine_real (rr zf zp : R) :
  0 < rr * rr + (zf - zp) * (zf - zp) ->
  0 < rr * rr + (zf + zp) * (zf + zp) ->
  Spec.Rankine (Fin rr) (Fin zf) (Fin zp)
  = Fin (1 / sqrt (rr * rr + (zf - zp) * (zf - zp))
         + 1 / sqrt (rr * rr + (zf + zp) * (zf + zp))).
Proof.
  intros H1 H2. unfold Spec.Rankine. cbn [fsub fadd fmul].
  rewrite !Sqrt_Fin by lra.
  rewrite !fdiv_Fin; [reflexivity | |];
    apply Rgt_not_eq, Rlt_gt, sqrt_lt_R0; assumption.
Qed.

(** C9.  FinGreen3D's infinite-depth kernel value is the Rankine part
    [1/sqrt(r^2+(zf-zp)^2) + 1/sqrt(r^2+(zf+zp)^2)] plus a wave part: the wave
    part is zero when the real part [k] of the stored wave number is 0; it is
    the purely real [2 k exp(k (zf+zp))] when [k (zf+zp) > -10]; it is zero
    otherwise.  For finite arguments off the singularities the value is the
    real number the formula denotes, with imaginary part 0. *)
Theorem computeInfiniteDepthGF_kernel (fg : FinGreen3D) (rr zf zp : float64) :
  computeInfiniteDepthGF fg rr zf zp
  = Ok (cadd (complex (Spec.Rankine rr zf zp) (Fin 0))
             (Spec.InfiniteDepthWavePart (real (waveNumber fg)) zf zp)) /\
  (feq (real (waveNumber fg)) (Fin 0) = true ->
   computeInfiniteDepthGF fg rr zf zp
   = Ok (complex (Spec.Rankine rr zf zp) (Fin 0))) /\
  (feq (real (waveNumber fg)) (Fin 0) = false ->
   fgt (fmul (real (waveNumber fg)) (fadd zf zp)) (Fin (-10)) = true ->
   computeInfiniteDepthGF fg rr zf zp
   = Ok (cadd (complex (Spec.Rankine rr zf zp) (Fin 0))
              (complex
                 (fmul (fmul (Fin 2) (real (waveNumber fg)))
                    (math.Exp (fmul (real (waveNumber fg)) (fadd zf zp))))
                 (Fin 0)))) /\
  (feq (real (waveNumber fg)) (Fin 0) = false ->
   fgt (fmul (real (waveNumber fg)) (fadd zf zp)) (Fin (-10)) = false ->
   computeInfiniteDepthGF fg rr zf zp
   = Ok (complex (Spec.Rankine rr zf zp) (Fin 0))) /\
  (forall k ki r f p,
     waveNumber fg = complex (Fin k) ki ->
     rr = Fin r -> zf = Fin f -> zp = Fin p ->
     0 < r * r + (f - p) * (f - p) -> 0 < r * r + (f + p) * (f + p) ->
     k <> 0 -> -10 < k * (f + p) ->
     computeInfiniteDepthGF fg rr zf zp
     = Ok (complex
             (Fin (1 / sqrt (r * r + (f - p) * (f - p))
                   + 1 / sqrt (r * r + (f + p) * (f + p))
                   + 2 * k * exp (k * (f + p))))
             (Fin 0))).
Proof.
  assert (Hcases : forall b1 b2,
    feq (real (waveNumber fg)) (Fin 0) = b1 ->
    fgt (fmul (real (waveNumber fg)) (fadd zf zp)) (Fin (-10)) = b2 ->
    computeInfiniteDepthGF fg rr zf zp
    = if b1 then Ok (complex (Spec.Rankine rr zf zp) (Fin 0))
      else Ok (cadd (complex (Spec.Rankine rr zf zp) (Fin 0))
                 (if b2
                  then complex
                         (fmul (fmul (Fin 2) (real (waveNumber fg)))
                            (math.Exp
                               (fmul (real (waveNumber fg)) (fadd zf zp))))
                         (Fin 0)
                  else complex (Fin 0) (Fin 0)))).
  { intros b1 b2 H1 H2. unfold computeInfiniteDepthGF.
    fold (Spec.Rankine rr zf zp). rewrite H1, H2. reflexivity. }
  split; [| split; [| split; [| split]]].
  - rewrite (Hcases _ _ eq_refl eq_refl). unfold Spec.InfiniteDepthWavePart.
    destruct (feq (real (waveNumber fg)) (Fin 0)).
    + now rewrite cadd_zero_r.
    + reflexivity.
  - intros H1. now rewrite (Hcases _ _ H1 eq_refl).
  - intros H1 H2. now rewrite (Hcases _ _ H1 H2).
  - intros H1 H2. rewrite (Hcases _ _ H1 H2).
    fold czero. now rewrite cadd_zero_r.
  - intros k ki r f p Hk -> -> -> Hr1 Hr2 Hk0 Hwh.
    rewrite (Hcases false true).
    + rewrite Rankine_real by assumption. rewrite Hk.
      unfold cadd, complex, real, imag; simpl.
      now rewrite Rplus_0_r.
    + rewrite Hk. simpl. now apply Reqb_false.
    + rewrite Hk. unfold fgt; simpl. now apply Rltb_true.
Qed.

(** ** The tabulation cache *)

(** Case analysis on a comparison of reals inside a float comparison. *)
Ltac real_cases :=
  repeat match goal with
  | |- context [Rltb ?x ?y] => destruct (Rltb_spec x y)
  | |- context [Rleb ?x ?y] => destruct (Rleb_spec x y)
  | |- context [Reqb ?x ?y] => destruct (Reqb_spec x y)
  | H : context [Rltb ?x ?y] |- _ => destruct (Rltb_spec x y)
  | H : context [Rleb ?x ?y] |- _ => destruct (Rleb_spec x y)
  | H : context [Reqb ?x ?y] |- _ => destruct (Reqb_spec x y)
  end.

Ltac float_order :=
  unfold fge, fgt, fne in *; simpl in *; real_cases;
  try discriminate; try reflexivity; try lra; auto.

Lemma fle_trans (a b c : float64) :
  fle a b = true -> fle b c = true -> fle a c = true.
Proof. destruct a, b, c; intros H1 H2; float_order. Qed.

Lemma flt_fle (a b : float64) : flt a b = true -> fle a b = true.
Proof. destruct a, b; intros H; float_order. Qed.

Lemma fle_total (a b : float64) :
  fle a a = true -> fle b b = true -> fle a b = true \/ fle b a = true.
Proof.
  destruct a, b; intros H1 H2; try discriminate; simpl; auto.
  destruct (Rle_lt_dec x x0); [left | right]; float_order.
Qed.

Lemma fle_refl_l (a b : float64) : fle a b = true -> fle a a = true.
Proof. destruct a, b; intros H; float_order. Qed.

Lemma fle_refl_r (a b : float64) : fle a b = true -> fle b b = true.
Proof. destruct a, b; intros H; float_order. Qed.

Lemma findIndex_from_cons (a b : float64) (rest : list float64) (i : Z)
    (val : float64) :
  findIndex_from i (a :: b :: rest) val
  = if fge val a && fle val b then i
    else findIndex_from (i + 1) (b :: rest) val.
Proof. reflexivity. Qed.

Lemma len_cons {A : Type} (a : A) (l : list A) : len (a :: l) = (len l + 1)%Z.
Proof. unfold len; cbn [List.length]; lia. Qed.

Lemma len_nonneg {A : Type} (l : list A) : (0 <= len l)%Z.
Proof. unfold len; lia. Qed.

(** [findIndex] yields -1 or a position that has an upper neighbour. *)
Lemma findIndex_from_range (arr : list float64) (val : float64) (i : Z) :
  findIndex_from i arr val = (-1)%Z \/
  (i <= findIndex_from i arr val <= i + len arr - 2)%Z.
Proof.
  revert i; induction arr as [| a rest IH]; intros i; [now left |].
  destruct rest as [| b rest]; [now left |].
  rewrite findIndex_from_cons.
  destruct (fge val a && fle val b).
  - right. rewrite !len_cons. pose proof (len_nonneg rest). lia.
  - destruct (IH (i + 1)%Z) as [H | H]; [now left | right].
    rewrite !len_cons in *. lia.
Qed.

Lemma findIndex_range (arr : list float64) (val : float64) :
  findIndex arr val = (-1)%Z \/ (0 <= findIndex arr val <= len arr - 2)%Z.
Proof.
  unfold findIndex. destruct (findIndex_from_range arr val 0); auto.
Qed.

(** A position returned by [findIndex] brackets the value, inclusively at
    both ends, and no earlier position does. *)
Lemma findIndex_from_bracket (arr : list float64) (val : float64) (i j : Z) :
  (0 <= i)%Z -> findIndex_from i arr val = j -> (i <= j)%Z ->
  exists a b,
    nth_error arr (Z.to_nat (j - i)) = Some a /\
    nth_error arr (Z.to_nat (j - i + 1)) = Some b /\
    fle a val = true /\ fle val b = true.
Proof.
  revert i; induction arr as [| a rest IH]; intros i Hi.
  - simpl. intros <-; lia.
  - destruct rest as [| b rest]; [simpl; intros <-; lia |].
    rewrite findIndex_from_cons.
    destruct (fge val a && fle val b) eqn:E.
    + intros <- _. exists a, b.
      replace (i - i)%Z with 0%Z by lia. simpl.
      apply andb_true_iff in E; unfold fge in E. tauto.
    + intros H Hle.
      assert (Hlt : (i + 1 <= j)%Z).
      { destruct (findIndex_from_range (b :: rest) val (i + 1)) as [H1 | H1];
          rewrite H in H1; lia. }
      destruct (IH (i + 1)%Z ltac:(lia) H Hlt) as (a' & b' & Ha & Hb & Hbr).
      exists a', b'.
      replace (Z.to_nat (j - i)) with (S (Z.to_nat (j - (i + 1)))) by lia.
      replace (Z.to_nat (j - i + 1))
        with (S (Z.to_nat (j - (i + 1) + 1))) by lia.
      simpl. auto.
Qed.

Lemma findIndex_bracket (arr : list float64) (val : float64) (j : Z) :
  findIndex arr val = j -> (0 <= j)%Z ->
  exists a b,
    index arr j = Ok a /\ index arr (j + 1) = Ok b /\
    fle a val = true /\ fle val b = true.
Proof.
  intros H Hj.
  destruct (findIndex_from_bracket arr val 0 j ltac:(lia) H Hj)
    as (a & b & Ha & Hb & Hbr).
  rewrite Z.sub_0_r in Ha, Hb.
  exists a, b. repeat split; try tauto; apply index_Ok; split; auto; lia.
Qed.


Lemma increasing_head_le_last (a : float64) (rest : list float64) :
  increasing (a :: rest) -> rest <> [] ->
  fle a (last (a :: rest) NaN) = true.
Proof.
  revert a; induction rest as [| b rest IH]; intros a Hinc Hne;
    [congruence |].
  destruct Hinc as [Hab Hinc].
  destruct rest as [| c rest].
  - simpl. now apply flt_fle.
  - apply fle_trans with b; [now apply flt_fle |].
    change (last (a :: b :: c :: rest) NaN) with (last (b :: c :: rest) NaN).
    apply IH; [exact Hinc | discriminate].
Qed.

(** On a strictly increasing range of at least two coordinates, [findIndex]
    yields -1 exactly for the values outside [range[0], range[last]]. *)
Lemma findIndex_from_outside (arr : list float64) (val : float64) (i : Z) :
  (0 <= i)%Z -> increasing arr -> (2 <= List.length arr)%nat ->
  (findIndex_from i arr val = (-1)%Z <-> ~ within arr val).
Proof.
  revert i; induction arr as [| a rest IH]; intros i Hi Hinc Hlen;
    [simpl in Hlen; lia |].
  destruct rest as [| b rest]; [simpl in Hlen; lia |].
  rewrite findIndex_from_cons. unfold fge, within.
  destruct Hinc as [Hab Hinc].
  destruct rest as [| c rest].
  - cbn [hd last findIndex_from].
    destruct (fle a val && fle val b) eqn:E.
    + apply andb_true_iff in E. split; [lia | tauto].
    + apply andb_false_iff in E. split; [| reflexivity].
      intros _ [H1 H2]. destruct E; congruence.
  - assert (Hrec := IH (i + 1)%Z ltac:(lia) Hinc ltac:(simpl; lia)).
    unfold within in Hrec.
    change (last (a :: b :: c :: rest) NaN) with (last (b :: c :: rest) NaN).
    cbn [hd] in *.
    assert (Hbz : fle b (last (b :: c :: rest) NaN) = true)
      by (apply increasing_head_le_last; [exact Hinc | discriminate]).
    assert (Hab' : fle a b = true) by now apply flt_fle.
    destruct (fle a val && fle val b) eqn:E.
    + apply andb_true_iff in E as [E1 E2]. split; [lia |].
      intros Hout. exfalso. apply Hout. split; [exact E1 |].
      now apply fle_trans with b.
    + rewrite Hrec. apply andb_false_iff in E.
      split; intros Hout [H1 H2]; apply Hout; split; auto.
      * destruct E as [E | E]; [congruence |].
        assert (Hb : fle b b = true) by (apply fle_refl_r with a; exact Hab').
        assert (Hv : fle val val = true) by (apply fle_refl_r with a; exact H1).
        destruct (fle_total b val Hb Hv) as [H | H]; [exact H | congruence].
      * now apply fle_trans with b.
Qed.

Lemma findIndex_outside (arr : list float64) (val : float64) :
  increasing arr -> (2 <= List.length arr)%nat ->
  (findIndex arr val = (-1)%Z <-> ~ within arr val).
Proof. intros; apply findIndex_from_outside; auto; lia. Qed.

Lemma index_not_Err {A : Type} (s : list A) (i : Z) (e : error) :
  index s i <> Err e.
Proof.
  unfold index. destruct (i <? 0)%Z; [discriminate |].
  destruct (nth_error s (Z.to_nat i)); discriminate.
Qed.

Lemma index2_not_Err {A : Type} (s : list (list A)) (i j : Z) (e : error) :
  index2 s i j <> Err e.
Proof.
  unfold index2. destruct (index s i) as [row | e' | msg] eqn:E; simpl.
  - apply index_not_Err.
  - exfalso; eapply index_not_Err; eauto.
  - discriminate.
Qed.

Lemma index2_in_range {A : Type} (s : list (list A)) (n m : nat) (i j : Z) :
  List.length s = n -> Forall (fun row => List.length row = m) s ->
  (0 <= i < Z.of_nat n)%Z -> (0 <= j < Z.of_nat m)%Z ->
  exists v, index2 s i j = Ok v.
Proof.
  intros Hn Hm Hi Hj. unfold index2.
  destruct (index_in_range s i) as [row Hrow]; [unfold len; lia |].
  rewrite Hrow; simpl.
  apply index_in_range. unfold len.
  apply index_Ok in Hrow as [_ Hrow]. apply nth_error_In in Hrow.
  rewrite Forall_forall in Hm. rewrite (Hm row Hrow). lia.
Qed.


Lemma Interpolate_invalid (tc : TabulationCache) (r z : float64) :
  IsValid tc = false ->
  Interpolate tc r z
  = Err (GreenFunctionEvaluationError "Tabulation cache is not valid").
Proof. intros H. unfold Interpolate. now rewrite H. Qed.

Lemma Interpolate_outside (tc : TabulationCache) (r z : float64) :
  IsValid tc = true -> outside_grid tc r z = true ->
  Interpolate tc r z
  = Err (GreenFunctionEvaluationError "Point outside tabulation range").
Proof.
  intros Hv Ho. unfold Interpolate. rewrite Hv. simpl negb. cbv iota.
  fold (outside_grid tc r z). now rewrite Ho.
Qed.

Lemma Interpolate_inside (tc : TabulationCache) (r z : float64) :
  IsValid tc = true -> outside_grid tc r z = false ->
  Interpolate tc r z =
  (r1 <- index (RRange tc) (findIndex (RRange tc) r) ;;
   r2 <- index (RRange tc) (findIndex (RRange tc) r + 1) ;;
   z1 <- index (ZRange tc) (findIndex (ZRange tc) z) ;;
   z2 <- index (ZRange tc) (findIndex (ZRange tc) z + 1) ;;
   v11 <- index2 (Values tc) (findIndex (ZRange tc) z)
            (findIndex (RRange tc) r) ;;
   v12 <- index2 (Values tc) (findIndex (ZRange tc) z + 1)
            (findIndex (RRange tc) r) ;;
   v21 <- index2 (Values tc) (findIndex (ZRange tc) z)
            (findIndex (RRange tc) r + 1) ;;
   v22 <- index2 (Values tc) (findIndex (ZRange tc) z + 1)
            (findIndex (RRange tc) r + 1) ;;
   Ok (Spec.Bilinear v11 v12 v21 v22
         (fdiv (fsub r r1) (fsub r2 r1)) (fdiv (fsub z z1) (fsub z2 z1)))).
Proof.
  intros Hv Ho. unfold Interpolate. rewrite Hv. simpl negb. cbv iota.
  fold (outside_grid tc r z). rewrite Ho. reflexivity.
Qed.

Lemma outside_grid_iff (tc : TabulationCache) (r z : float64) :
  outside_grid tc r z = true <->
  findIndex (RRange tc) r = (-1)%Z \/
  findIndex (RRange tc) r = (len (RRange tc) - 1)%Z \/
  findIndex (ZRange tc) z = (-1)%Z \/
  findIndex (ZRange tc) z = (len (ZRange tc) - 1)%Z.
Proof.
  unfold outside_grid.
  pose proof (findIndex_range (RRange tc) r) as Hr.
  pose proof (findIndex_range (ZRange tc) z) as Hz.
  rewrite !orb_true_iff, !Z.ltb_lt, !Z.leb_le. lia.
Qed.

Lemma outside_grid_false (tc : TabulationCache) (r z : float64) :
  outside_grid tc r z = false ->
  (0 <= findIndex (RRange tc) r <= len (RRange tc) - 2)%Z /\
  (0 <= findIndex (ZRange tc) z <= len (ZRange tc) - 2)%Z.
Proof.
  intros H.
  assert (Hn : ~ outside_grid tc r z = true) by congruence.
  rewrite outside_grid_iff in Hn.
  pose proof (findIndex_range (RRange tc) r) as Hr.
  pose proof (findIndex_range (ZRange tc) z) as Hz.
  lia.
Qed.

(** Past the range test no [error] is produced any more. *)
Lemma Interpolate_inside_not_Err (tc : TabulationCache) (r z : float64)
    (e : error) :
  IsValid tc = true -> outside_grid tc r z = false ->
  Interpolate tc r z <> Err e.
Proof.
  intros Hv Ho. rewrite (Interpolate_inside tc r z Hv Ho).
  repeat match goal with
  | |- bind (index ?s ?i) _ <> _ =>
      let E := fresh "E" in
      destruct (index s i) eqn:E; simpl;
      [ | exfalso; eapply index_not_Err; eassumption | discriminate ]
  | |- bind (index2 ?s ?i ?j) _ <> _ =>
      let E := fresh "E" in
      destruct (index2 s i j) eqn:E; simpl;
      [ | exfalso; eapply index2_not_Err; eassumption | discriminate ]
  end.
  discriminate.
Qed.

Lemma Interpolate_inside_Ok (tc : TabulationCache) (r z : float64) :
  IsValid tc = true -> grid_shape tc -> outside_grid tc r z = false ->
  is_Ok (Interpolate tc r z).
Proof.
  intros Hv [Hrows Hcols] Ho.
  rewrite (Interpolate_inside tc r z Hv Ho).
  apply outside_grid_false in Ho as [Hr Hz]. unfold len in Hr, Hz.
  destruct (index_in_range (RRange tc) (findIndex (RRange tc) r))
    as [r1 ->]; [unfold len; lia |].
  destruct (index_in_range (RRange tc) (findIndex (RRange tc) r + 1))
    as [r2 ->]; [unfold len; lia |].
  destruct (index_in_range (ZRange tc) (findIndex (ZRange tc) z))
    as [z1 ->]; [unfold len; lia |].
  destruct (index_in_range (ZRange tc) (findIndex (ZRange tc) z + 1))
    as [z2 ->]; [unfold len; lia |].
  simpl bind.
  destruct (index2_in_range (Values tc) _ _ (findIndex (ZRange tc) z)
              (findIndex (RRange tc) r) Hrows Hcols) as [v11 ->]; [lia | lia |].
  destruct (index2_in_range (Values tc) _ _ (findIndex (ZRange tc) z + 1)
              (findIndex (RRange tc) r) Hrows Hcols) as [v12 ->]; [lia | lia |].
  destruct (index2_in_range (Values tc) _ _ (findIndex (ZRange tc) z)
              (findIndex (RRange tc) r + 1) Hrows Hcols) as [v21 ->];
    [lia | lia |].
  destruct (index2_in_range (Values tc) _ _ (findIndex (ZRange tc) z + 1)
              (findIndex (RRange tc) r + 1) Hrows Hcols) as [v22 ->];
    [lia | lia |].
  exact I.
Qed.

(** C6.  [Interpolate] returns an error whenever the cache is not valid.  On
    a valid cache it returns an error exactly when [findIndex] yields -1 or the
    last index for the r or the z coordinate; with the value grid shaped as
    the ranges require, every other call returns a value.  On a strictly
    increasing range of at least two coordinates, [findIndex] yields -1
    exactly for the coordinates outside [range[0], range[last]]. *)
Theorem Interpolate_error_cases (tc : TabulationCache) (r z : float64) :
  (IsValid tc = false -> is_Err (Interpolate tc r z)) /\
  (IsValid tc = true ->
   (is_Err (Interpolate tc r z) <->
    findIndex (RRange tc) r = (-1)%Z \/
    findIndex (RRange tc) r = (len (RRange tc) - 1)%Z \/
    findIndex (ZRange tc) z = (-1)%Z \/
    findIndex (ZRange tc) z = (len (ZRange tc) - 1)%Z)) /\
  (IsValid tc = true -> grid_shape tc ->
   ~ is_Err (Interpolate tc r z) -> is_Ok (Interpolate tc r z)) /\
  (increasing (RRange tc) -> (2 <= List.length (RRange tc))%nat ->
   (findIndex (RRange tc) r = (-1)%Z <-> ~ within (RRange tc) r)) /\
  (increasing (ZRange tc) -> (2 <= List.length (ZRange tc))%nat ->
   (findIndex (ZRange tc) z = (-1)%Z <-> ~ within (ZRange tc) z)).
Proof.
  assert (Hiff : IsValid tc = true ->
    (is_Err (Interpolate tc r z) <-> outside_grid tc r z = true)).
  { intros Hv. destruct (outside_grid tc r z) eqn:Ho.
    - rewrite (Interpolate_outside tc r z Hv Ho). simpl. tauto.
    - split; [| discriminate].
      destruct (Interpolate tc r z) as [v | e | msg] eqn:E; simpl;
        try contradiction.
      intros _. exfalso.
      eapply Interpolate_inside_not_Err; eauto. }
  split; [| split; [| split; [| split]]].
  - intros Hv. now rewrite Interpolate_invalid.
  - intros Hv. rewrite (Hiff Hv). apply outside_grid_iff.
  - intros Hv Hg Hne. apply Interpolate_inside_Ok; auto.
    destruct (outside_grid tc r z) eqn:Ho; [| reflexivity].
    exfalso. apply Hne. now apply Hiff.
  - apply findIndex_outside.
  - apply findIndex_outside.
Qed.

(** The test cache at the centre of its first cell. *)
Lemma test_cache_rIdx : findIndex (RRange test_cache) (Fin 0.5) = 0%Z.
Proof.
  unfold findIndex; simpl RRange. rewrite findIndex_from_cons.
  unfold fge; simpl fle. now rewrite !Rleb_true by lra.
Qed.

Lemma test_cache_zIdx : findIndex (ZRange test_cache) (Fin (-1.5)) = 0%Z.
Proof.
  unfold findIndex; simpl ZRange. rewrite findIndex_from_cons.
  unfold fge; simpl fle. now rewrite !Rleb_true by lra.
Qed.

Lemma test_cache_shape : grid_shape test_cache.
Proof. split; [reflexivity | repeat constructor]. Qed.

(** On the cache of the package's test, the centre of the first cell is
    interpolated without error; before the cache is marked valid the same
    call fails. *)
Lemma Interpolate_error_cases_witness :
  is_Ok (Interpolate test_cache (Fin 0.5) (Fin (-1.5))) /\
  is_Err (Interpolate
            (NewTabulationCache [Fin 0; Fin 1; Fin 2]
               [Fin (-2); Fin (-1); Fin 0] Float64)
            (Fin 0.5) (Fin (-1.5))).
Proof.
  split.
  - destruct (Interpolate_error_cases test_cache (Fin 0.5) (Fin (-1.5)))
      as (_ & Hiff & Hok & _).
    apply Hok; [reflexivity | exact test_cache_shape |].
    rewrite (Hiff eq_refl), test_cache_rIdx, test_cache_zIdx.
    unfold len; simpl. lia.
  - destruct (Interpolate_error_cases
                (NewTabulationCache [Fin 0; Fin 1; Fin 2]
                   [Fin (-2); Fin (-1); Fin 0] Float64)
                (Fin 0.5) (Fin (-1.5))) as (Hinv & _).
    apply Hinv. reflexivity.
Defined.

(** ** Bilinear interpolation *)

Lemma scale_Fin (a b t : R) :
  Spec.scale (complex (Fin a) (Fin b)) (Fin t)
  = complex (Fin (a * t)) (Fin (b * t)).
Proof.
  unfold Spec.scale, cmul, complex, real, imag; simpl.
  f_equal; f_equal; ring.
Qed.

Lemma cadd_Fin (a b c d : R) :
  cadd (complex (Fin a) (Fin b)) (complex (Fin c) (Fin d))
  = complex (Fin (a + c)) (Fin (b + d)).
Proof. reflexivity. Qed.

Lemma Bilinear_real (a11 b11 a12 b12 a21 b21 a22 b22 fr fz : R) :
  Spec.Bilinear (complex (Fin a11) (Fin b11)) (complex (Fin a12) (Fin b12))
    (complex (Fin a21) (Fin b21)) (complex (Fin a22) (Fin b22))
    (Fin fr) (Fin fz)
  = complex
      (Fin ((a11 * (1 - fr) + a21 * fr) * (1 - fz)
            + (a12 * (1 - fr) + a22 * fr) * fz))
      (Fin ((b11 * (1 - fr) + b21 * fr) * (1 - fz)
            + (b12 * (1 - fr) + b22 * fr) * fz)).
Proof.
  unfold Spec.Bilinear. cbn [fsub].
  now rewrite !scale_Fin, !cadd_Fin, !scale_Fin, !cadd_Fin.
Qed.

Lemma Interpolate_blend (tc : TabulationCache) (r z : float64) (i j : Z)
    (r1 r2 z1 z2 : float64) (v11 v12 v21 v22 : complex128) :
  IsValid tc = true ->
  findIndex (RRange tc) r = i -> (0 <= i)%Z ->
  findIndex (ZRange tc) z = j -> (0 <= j)%Z ->
  index (RRange tc) i = Ok r1 -> index (RRange tc) (i + 1) = Ok r2 ->
  index (ZRange tc) j = Ok z1 -> index (ZRange tc) (j + 1) = Ok z2 ->
  index2 (Values tc) j i = Ok v11 ->
  index2 (Values tc) j (i + 1) = Ok v21 ->
  index2 (Values tc) (j + 1) i = Ok v12 ->
  index2 (Values tc) (j + 1) (i + 1) = Ok v22 ->
  Interpolate tc r z
  = Ok (Spec.Bilinear v11 v12 v21 v22
          (fdiv (fsub r r1) (fsub r2 r1)) (fdiv (fsub z z1) (fsub z2 z1))).
Proof.
  intros Hv Hi Hi0 Hj Hj0 Hr1 Hr2 Hz1 Hz2 H11 H21 H12 H22.
  assert (Ho : outside_grid tc r z = false).
  { destruct (outside_grid tc r z) eqn:Ho; [| reflexivity].
    apply outside_grid_iff in Ho. rewrite Hi, Hj in Ho.
    apply index_Ok in Hr2 as [_ Hr2]. apply index_Ok in Hz2 as [_ Hz2].
    assert (Z.to_nat (i + 1) < List.length (RRange tc))%nat
      by (apply nth_error_Some; congruence).
    assert (Z.to_nat (j + 1) < List.length (ZRange tc))%nat
      by (apply nth_error_Some; congruence).
    unfold len in Ho. lia. }
  rewrite (Interpolate_inside tc r z Hv Ho), Hi, Hj.
  rewrite Hr1, Hr2, Hz1, Hz2. simpl bind.
  rewrite H11, H12, H21, H22. reflexivity.
Qed.

(** C7.  On a valid cache, when [findIndex] brackets [r] between the
    consecutive coordinates [r1, r2] and [z] between [z1, z2], [Interpolate]
    returns [v1 (1-fz) + v2 fz] with [v1 = v11 (1-fr) + v21 fr],
    [v2 = v12 (1-fr) + v22 fr], [fr = (r-r1)/(r2-r1)], [fz = (z-z1)/(z2-z1)],
    the corners being [v11 = Values[z1][r1]], [v21] at (r2, z1), [v12] at
    (r1, z2), [v22] at (r2, z2), and the bracket is inclusive at both ends.
    On finite corner values the blend is the real bilinear formula on the
    real and on the imaginary parts.  At the midpoint of the unit cell with
    corner values 1, 2, 3, 4 the result is 2.5. *)
Theorem Interpolate_bilinear :
  (forall (tc : TabulationCache) (r z : float64) (i j : Z)
          (r1 r2 z1 z2 : float64) (v11 v12 v21 v22 : complex128),
     IsValid tc = true ->
     findIndex (RRange tc) r = i -> (0 <= i)%Z ->
     findIndex (ZRange tc) z = j -> (0 <= j)%Z ->
     index (RRange tc) i = Ok r1 -> index (RRange tc) (i + 1) = Ok r2 ->
     index (ZRange tc) j = Ok z1 -> index (ZRange tc) (j + 1) = Ok z2 ->
     index2 (Values tc) j i = Ok v11 ->
     index2 (Values tc) j (i + 1) = Ok v21 ->
     index2 (Values tc) (j + 1) i = Ok v12 ->
     index2 (Values tc) (j + 1) (i + 1) = Ok v22 ->
     Interpolate tc r z
     = Ok (Spec.Bilinear v11 v12 v21 v22
             (fdiv (fsub r r1) (fsub r2 r1))
             (fdiv (fsub z z1) (fsub z2 z1))) /\
     fle r1 r = true /\ fle r r2 = true /\
     fle z1 z = true /\ fle z z2 = true) /\
  (forall a11 b11 a12 b12 a21 b21 a22 b22 fr fz : R,
     Spec.Bilinear (complex (Fin a11) (Fin b11)) (complex (Fin a12) (Fin b12))
       (complex (Fin a21) (Fin b21)) (complex (Fin a22) (Fin b22))
       (Fin fr) (Fin fz)
     = complex
         (Fin ((a11 * (1 - fr) + a21 * fr) * (1 - fz)
               + (a12 * (1 - fr) + a22 * fr) * fz))
         (Fin ((b11 * (1 - fr) + b21 * fr) * (1 - fz)
               + (b12 * (1 - fr) + b22 * fr) * fz))) /\
  Interpolate test_cache (Fin 0.5) (Fin (-1.5))
  = Ok (complex (Fin 2.5) (Fin 0)).
Proof.
  split; [| split].
  - intros tc r z i j r1 r2 z1 z2 v11 v12 v21 v22
      Hv Hi Hi0 Hj Hj0 Hr1 Hr2 Hz1 Hz2 H11 H21 H12 H22.
    split; [eapply Interpolate_blend; eauto |].
    destruct (findIndex_bracket _ _ _ Hi Hi0) as (a & b & Ha & Hb & Hab1 & Hab2).
    destruct (findIndex_bracket _ _ _ Hj Hj0) as (c & d & Hc & Hd & Hcd1 & Hcd2).
    rewrite Hr1 in Ha; rewrite Hr2 in Hb; rewrite Hz1 in Hc; rewrite Hz2 in Hd.
    inversion Ha; inversion Hb; inversion Hc; inversion Hd; subst. auto.
  - apply Bilinear_real.
  - rewrite (Interpolate_blend test_cache (Fin 0.5) (Fin (-1.5)) 0 0
               (Fin 0) (Fin 1) (Fin (-2)) (Fin (-1))
               (complex (Fin 1) (Fin 0)) (complex (Fin 3) (Fin 0))
               (complex (Fin 2) (Fin 0)) (complex (Fin 4) (Fin 0)));
      try reflexivity;
      try apply test_cache_rIdx; try apply test_cache_zIdx; try lia.
    cbn [fsub]. rewrite !fdiv_Fin by lra. rewrite Bilinear_real.
    unfold complex. do 3 f_equal; lra.
Qed.

(** The general statement at the cell of the package's test. *)
Lemma Interpolate_bilinear_witness :
  Interpolate test_cache (Fin 0.5) (Fin (-1.5))
  = Ok (Spec.Bilinear (complex (Fin 1) (Fin 0)) (complex (Fin 3) (Fin 0))
          (complex (Fin 2) (Fin 0)) (complex (Fin 4) (Fin 0))
          (fdiv (fsub (Fin 0.5) (Fin 0)) (fsub (Fin 1) (Fin 0)))
          (fdiv (fsub (Fin (-1.5)) (Fin (-2))) (fsub (Fin (-1)) (Fin (-2)))))
  /\ fle (Fin 0) (Fin 0.5) = true /\ fle (Fin 0.5) (Fin 1) = true
  /\ fle (Fin (-2)) (Fin (-1.5)) = true /\ fle (Fin (-1.5)) (Fin (-1)) = true.
Proof.
  apply (proj1 Interpolate_bilinear test_cache (Fin 0.5) (Fin (-1.5)) 0%Z 0%Z);
    try reflexivity;
    try apply test_cache_rIdx; try apply test_cache_zIdx; try lia.
Defined.

(** ** Hyperbolic tangent *)








(** ** The Newton-Raphson loop on finite values *)

Lemma newton_loop_step (n : nat) (v h k : R) :
  newton_loop (S n) (Fin v) (Fin h) (Fin k) =
  if Rltb (Rabs (Spec.f' h k)) 1e-15 then (Fin k, Degenerate)
  else if Rltb (Rabs (k - Spec.f v h k / Spec.f' h k - k)) 1e-12
       then (Fin k, Converged)
       else newton_loop n (Fin v) (Fin h)
              (Fin (k - Spec.f v h k / Spec.f' h k)).
Proof.
  cbn [newton_loop math.Tanh fmul fsub fadd math.Abs flt].
  fold (Spec.f v h k). fold (Spec.f' h k).
  destruct (Rltb_spec (Rabs (Spec.f' h k)) 1e-15) as [Hd | Hd];
    [reflexivity |].
  assert (Hnz : Spec.f' h k <> 0).
  { intros H0. apply Hd. rewrite H0, Rabs_R0. lra. }
  rewrite (fdiv_Fin _ _ Hnz). cbn [fsub math.Abs flt]. reflexivity.
Qed.

Lemma ComputeWaveNumber_finite (w h : R) :
  ComputeWaveNumber (Fin w) (Fin h)
  = complex
      (fst (newton_loop 100 (Fin (w * w / 9.81)) (Fin h) (Fin (w * w / 9.81))))
      (Fin 0).
Proof.
  unfold ComputeWaveNumber, Gravity. cbn [math.IsInf fmul].
  rewrite fdiv_Fin by lra. reflexivity.
Qed.



(** ** The wave number and the dispersion relation *)

Lemma ComputeWaveNumber_deep (omega : float64) :
  ComputeWaveNumber omega PInf
  = complex (fdiv (fmul omega omega) Gravity) (Fin 0).
Proof. reflexivity. Qed.



(** ** The loop, pass by pass *)

Lemma newton_loop_pass (n : nat) (v h k : float64) :
  fst (newton_loop (S n) v h k)
  = if newton_breaks v h k then k
    else fst (newton_loop n v h (newton_next v h k)).
Proof.
  cbn [newton_loop]. unfold newton_breaks, newton_next. cbv zeta.
  destruct (flt (math.Abs _) (Fin 1e-15)); [reflexivity |].
  cbn [orb]. destruct (flt _ (Fin 1e-12)); reflexivity.
Qed.




(** ** The loop against the specified scheme *)

Lemma newton_pass_scheme (v h k : float64) :
  newton_breaks v h k = Spec.degenerate h k || Spec.converged v h k /\
  newton_next v h k = Spec.k_new v h k.
Proof. split; reflexivity. Qed.

Lemma newton_loop_scheme (n : nat) (v h : float64) :
  forall k, fst (newton_loop n v h k) = Spec.NewtonRaphson n v h k.
Proof.
  induction n as [| n IH]; intros k; [reflexivity |].
  rewrite newton_loop_pass. cbn [Spec.NewtonRaphson].
  destruct (newton_pass_scheme v h k) as [-> ->].
  destruct (Spec.degenerate h k); [reflexivity |].
  cbn [orb]. destruct (Spec.converged v h k); [reflexivity |].
  apply IH.
Qed.

(** C4.  At any depth other than +Inf, [ComputeWaveNumber] is the specified
    Newton-Raphson scheme: initial guess [v = omega^2/g], update
    [k_new = k - f(k)/f'(k)] with the two functions as specified, at most 100
    steps, stopping at an estimate [k] where [|f'(k)| < 1e-15] or
    [|k_new - k| < 1e-12], and the estimate at which the iteration stops is
    the root returned, with imaginary part 0. *)
Theorem ComputeWaveNumber_is_NewtonRaphson (omega h : float64) :
  math.IsInf h 1 = false ->
  ComputeWaveNumber omega h = complex (Spec.WaveNumberRoot omega h) (Fin 0).
Proof.
  intros Hfin. unfold ComputeWaveNumber, Spec.WaveNumberRoot. rewrite Hfin.
  cbv zeta. now rewrite newton_loop_scheme.
Qed.

(** The depth of the package's finite-depth tests, 10 m, at [omega = 2]. *)
Lemma ComputeWaveNumber_is_NewtonRaphson_witness :
  ComputeWaveNumber (Fin 2) (Fin 10)
  = complex (Spec.WaveNumberRoot (Fin 2) (Fin 10)) (Fin 0).
Proof.
  apply (ComputeWaveNumber_is_NewtonRaphson (Fin 2) (Fin 10)). reflexivity.
Defined.

(** ** Instances on the inputs of the package's tests *)

(** The domain check on the two-panel test meshes: a free surface at 0 over
    the finite depth 10 is rejected. *)
Lemma LiangWuNoblesseGF_domain_constraint_witness :
  LiangWuNoblesseGF_Evaluate NewLiangWuNoblesseGF
    (AsMeshLike mesh_a) (AsMeshLike mesh_b) (Fin 0) (Fin 10)
    (complex (Fin 1) (Fin 0)) true true
  = Err LiangWuNoblesseGF_domainError.
Proof.
  apply (proj1 (proj2 (LiangWuNoblesseGF_domain_constraint
                         NewLiangWuNoblesseGF
                         (AsMeshLike mesh_a) (AsMeshLike mesh_b)
                         (Fin 0) (Fin 10) (complex (Fin 1) (Fin 0))
                         true true))).
  - right. exists 10. reflexivity.
  - right. exists 10. reflexivity.
Defined.

(** The root family at depth 10 for the wave number 1. *)
Lemma computeDispersionRoots_family_witness :
  computeDispersionRoots (NewFinGreen3D (Fin 10)) (complex (Fin 1) (Fin 0))
  = Ok (complex (Fin 1) (Fin 0)
        :: map (fun n => complex (Fin 0) (Fin (IZR n * PI / 10)))
             [1; 2; 3; 4; 5; 6; 7; 8; 9; 10]%Z).
Proof.
  apply (proj1 (proj2 (proj2 (computeDispersionRoots_family
                                (NewFinGreen3D (Fin 10))
                                (complex (Fin 1) (Fin 0)))))).
  - reflexivity.
  - lra.
Defined.

(** The kernel of [TestFinGreen3D_ComputeGreenFunction3D_InfiniteDepth]:
    wave number 1, [rr = 1], [zf = -1], [zp = -2]. *)
Lemma computeInfiniteDepthGF_kernel_witness :
  computeInfiniteDepthGF
    (fst (SetWaveNumber (NewFinGreen3D PInf) (complex (Fin 1) (Fin 0))))
    (Fin 1) (Fin (-1)) (Fin (-2))
  = Ok (complex
          (Fin (1 / sqrt (1 * 1 + (-1 - -2) * (-1 - -2))
                + 1 / sqrt (1 * 1 + (-1 + -2) * (-1 + -2))
                + 2 * 1 * exp (1 * (-1 + -2))))
          (Fin 0)).
Proof.
  apply (proj2 (proj2 (proj2 (proj2 (computeInfiniteDepthGF_kernel
           (fst (SetWaveNumber (NewFinGreen3D PInf) (complex (Fin 1) (Fin 0))))
           (Fin 1) (Fin (-1)) (Fin (-2)))))) 1 (Fin 0) 1 (-1) (-2));
    try reflexivity; lra.
Defined.

(** * Further properties *)

(** ** Floating-point identities used below *)

Lemma fadd_comm (a b : float64) : fadd a b = fadd b a.
Proof. destruct a, b; simpl; try reflexivity. f_equal; ring. Qed.

Lemma fmul_comm (a b : float64) : fmul a b = fmul b a.
Proof. destruct a, b; simpl; try reflexivity. f_equal; ring. Qed.

Lemma cmul_comm (a b : complex128) : cmul a b = cmul b a.
Proof.
  destruct a as [ar ai], b as [br bi]. unfold cmul, complex, real, imag.
  cbn [fst snd].
  rewrite (fmul_comm ar br), (fmul_comm ai bi), (fmul_comm ar bi),
    (fmul_comm ai br).
  f_equal. apply fadd_comm.
Qed.

Lemma fmul_neg_neg (a : float64) : fmul (fneg a) (fneg a) = fmul a a.
Proof. destruct a; simpl; try reflexivity. f_equal; ring. Qed.

Lemma fsub_swap_square (a b : float64) :
  fmul (fsub a b) (fsub a b) = fmul (fsub b a) (fsub b a).
Proof. destruct a, b; simpl; try reflexivity. f_equal; ring. Qed.


(** ** Dimension validation *)

Lemma ValidateMatrixDimensions_None (rows cols : Z) :
  ValidateMatrixDimensions rows cols = None ->
  (1 <= rows <= 1000000)%Z /\ (1 <= cols <= 1000000)%Z.
Proof.
  unfold ValidateMatrixDimensions.
  destruct (Z.leb_spec rows 0), (Z.leb_spec cols 0); simpl;
    try discriminate.
  destruct (Z.ltb_spec 1000000 rows), (Z.ltb_spec 1000000 cols); simpl;
    try discriminate.
  intros _. lia.
Qed.

(** X1.  [ValidateMatrixDimensions] accepts exactly the dimensions between 1
    and 1,000,000; a non-positive dimension is reported as such even when
    the other one is too large. *)
Theorem ValidateMatrixDimensions_cases (rows cols : Z) :
  (ValidateMatrixDimensions rows cols = None <->
   (1 <= rows <= 1000000)%Z /\ (1 <= cols <= 1000000)%Z) /\
  (ValidateMatrixDimensions rows cols
   = Some (GreenFunctionEvaluationError "Matrix dimensions must be positive")
   <-> (rows <= 0)%Z \/ (cols <= 0)%Z) /\
  (ValidateMatrixDimensions rows cols
   = Some (GreenFunctionEvaluationError "Matrix dimensions too large")
   <-> (0 < rows)%Z /\ (0 < cols)%Z /\
       ((1000000 < rows)%Z \/ (1000000 < cols)%Z)).
Proof.
  unfold ValidateMatrixDimensions.
  destruct (Z.leb_spec rows 0), (Z.leb_spec cols 0); simpl;
    try (repeat split; intros; try discriminate; try lia; auto; fail).
  destruct (Z.ltb_spec 1000000 rows), (Z.ltb_spec 1000000 cols); simpl;
    repeat split; intros; try discriminate; try lia; auto.
Qed.

(** X2.  Dimensions that pass [ValidateMatrixDimensions] are within what
    [initMatrices] can describe: gonum's dimension check passes for S and
    for K, and none of the [int] products computed on the way wraps around
    (the largest element count is 3,000,000,000,000).  Whether memory for
    that many entries can be had is another matter. *)
Theorem validated_dimensions_fit (rows cols : Z) (early : bool) :
  ValidateMatrixDimensions rows cols = None ->
  mat.check_dims rows cols = Ok tt /\
  mat.check_dims rows (GoInt.mul cols (kWidth early)) = Ok tt /\
  GoInt.mul rows cols = (rows * cols)%Z /\
  GoInt.mul cols (kWidth early) = (cols * kWidth early)%Z /\
  GoInt.mul rows (GoInt.mul cols (kWidth early))
  = (rows * (cols * kWidth early))%Z /\
  (0 < rows * (cols * kWidth early) <= 3000000000000)%Z.
Proof.
  intros Hv. apply ValidateMatrixDimensions_None in Hv as [Hr Hc].
  assert (Hw : (1 <= kWidth early <= 3)%Z) by (destruct early; simpl; lia).
  assert (Hcw : (1 <= cols * kWidth early <= 3000000)%Z) by nia.
  assert (Hall : (0 < rows * (cols * kWidth early) <= 3000000000000)%Z).
  { split; [nia |].
    apply Z.le_trans with (1000000 * 3000000)%Z; [| lia].
    apply Z.mul_le_mono_nonneg; lia. }
  destruct (positive_products_fit rows cols (kWidth early))
    as (H1 & H2 & H3); try lia.
  { unfold GoInt.max_int. lia. }
  rewrite H2, H1, H3.
  repeat split; try lia; apply check_dims_positive; lia.
Qed.

Lemma validated_dimensions_fit_witness :
  mat.check_dims 1000000 1000000 = Ok tt /\
  mat.check_dims 1000000 (GoInt.mul 1000000 (kWidth false)) = Ok tt /\
  GoInt.mul 1000000 1000000 = (1000000 * 1000000)%Z /\
  GoInt.mul 1000000 (kWidth false) = (1000000 * kWidth false)%Z /\
  GoInt.mul 1000000 (GoInt.mul 1000000 (kWidth false))
  = (1000000 * (1000000 * kWidth false))%Z /\
  (0 < 1000000 * (1000000 * kWidth false) <= 3000000000000)%Z.
Proof.
  apply (validated_dimensions_fit 1000000 1000000 false). reflexivity.
Defined.

(** ** Distances and the Rankine source *)

Lemma squares2_nonneg (u v : R) : 0 <= u * u + v * v.
Proof.
  pose proof (Rle_0_sqr u) as Hu. pose proof (Rle_0_sqr v) as Hv.
  unfold Rsqr in *. lra.
Qed.

Lemma squares3_nonneg (u v w : R) : 0 <= u * u + v * v + w * w.
Proof.
  pose proof (squares2_nonneg u v). pose proof (Rle_0_sqr w) as Hw.
  unfold Rsqr in *. lra.
Qed.

Lemma ComputeDistance_finite (x1 y1 z1 x2 y2 z2 : R) :
  ComputeDistance (finite_point x1 y1 z1) (finite_point x2 y2 z2)
  = Fin (sqrt ((x1 - x2) * (x1 - x2) + (y1 - y2) * (y1 - y2)
               + (z1 - z2) * (z1 - z2))).
Proof.
  unfold ComputeDistance, finite_point, px, py, pz.
  cbn [fst snd fsub fmul fadd]. apply Sqrt_Fin. apply squares3_nonneg.
Qed.

Lemma ComputeHorizontalDistance_finite (x1 y1 z1 x2 y2 z2 : R) :
  ComputeHorizontalDistance (finite_point x1 y1 z1) (finite_point x2 y2 z2)
  = Fin (sqrt ((x1 - x2) * (x1 - x2) + (y1 - y2) * (y1 - y2))).
Proof.
  unfold ComputeHorizontalDistance, finite_point, px, py, pz.
  cbn [fst snd fsub fmul fadd]. apply Sqrt_Fin. apply squares2_nonneg.
Qed.

Lemma ComputeDistance_same (x y z : R) :
  ComputeDistance (finite_point x y z) (finite_point x y z) = Fin 0.
Proof.
  rewrite ComputeDistance_finite.
  replace ((x - x) * (x - x) + (y - y) * (y - y) + (z - z) * (z - z))
    with 0 by ring.
  now rewrite sqrt_0.
Qed.

Lemma Sqrt_not_negative (a : float64) : flt (math.Sqrt a) (Fin 0) = false.
Proof.
  destruct a as [x | | |]; try reflexivity.
  cbn [math.Sqrt]. destruct (Rltb x 0); [reflexivity |].
  cbn [flt]. apply Rltb_false, sqrt_pos.
Qed.

Lemma RankineSource_not_negative (a : float64) :
  flt (RankineSource (math.Sqrt a)) (Fin 0) = false.
Proof.
  destruct a as [x | | |]; try reflexivity.
  - cbn [math.Sqrt]. destruct (Rltb x 0); [reflexivity |].
    unfold RankineSource. cbn [feq].
    destruct (Reqb_spec (sqrt x) 0) as [H0 | H0]; [reflexivity |].
    rewrite fdiv_Fin by exact H0. cbn [flt]. apply Rltb_false.
    pose proof (sqrt_pos x) as Hs.
    assert (Hs' : 0 < sqrt x) by (destruct Hs as [Hs | Hs]; [exact Hs | congruence]).
    left. apply Rdiv_lt_0_compat; lra.
  - unfold RankineSource. cbn [math.Sqrt feq fdiv flt].
    apply Rltb_false. lra.
Qed.

Lemma fsub_anti (a b : float64) : fsub b a = fneg (fsub a b).
Proof. destruct a, b; simpl; try reflexivity. f_equal; ring. Qed.

Lemma fdiv_neg_l (a b : float64) : fdiv (fneg a) b = fneg (fdiv a b).
Proof.
  destruct a as [x | | |], b as [y | | |]; cbn [fneg fdiv];
    try reflexivity.
  - destruct (Reqb y 0).
    + unfold signed_inf.
      destruct (Rltb_spec 0 x), (Rltb_spec x 0), (Rltb_spec 0 (- x)),
        (Rltb_spec (- x) 0); try reflexivity; lra.
    + cbn [fneg]. f_equal. unfold Rdiv. ring.
  - cbn [fneg]. f_equal. ring.
  - cbn [fneg]. f_equal. ring.
  - destruct (Rltb y 0); reflexivity.
  - destruct (Rltb y 0); reflexivity.
Qed.

(** X3.  [ComputeDistance] is symmetric in its two points, whatever their
    coordinates; it is 0 from a point with finite coordinates to itself; and
    it is never negative. *)
Theorem ComputeDistance_symmetric :
  (forall p q, ComputeDistance p q = ComputeDistance q p) /\
  (forall x y z,
     ComputeDistance (finite_point x y z) (finite_point x y z) = Fin 0) /\
  (forall p q, flt (ComputeDistance p q) (Fin 0) = false).
Proof.
  split; [| split].
  - intros [[x1 y1] z1] [[x2 y2] z2]. unfold ComputeDistance, px, py, pz.
    cbn [fst snd].
    now rewrite (fsub_swap_square x1 x2), (fsub_swap_square y1 y2),
      (fsub_swap_square z1 z2).
  - apply ComputeDistance_same.
  - intros p q. unfold ComputeDistance. cbv zeta. apply Sqrt_not_negative.
Qed.

(** X4.  Between points with finite coordinates the horizontal distance
    never exceeds the distance, in the code's own comparison of the two
    results, and the two results are equal for points at the same height. *)
Theorem ComputeHorizontalDistance_le_distance (x1 y1 z1 x2 y2 z2 : R) :
  fle (ComputeHorizontalDistance (finite_point x1 y1 z1)
         (finite_point x2 y2 z2))
      (ComputeDistance (finite_point x1 y1 z1) (finite_point x2 y2 z2))
  = true /\
  (z1 = z2 ->
   ComputeHorizontalDistance (finite_point x1 y1 z1) (finite_point x2 y2 z2)
   = ComputeDistance (finite_point x1 y1 z1) (finite_point x2 y2 z2)).
Proof.
  rewrite ComputeHorizontalDistance_finite, ComputeDistance_finite.
  split.
  - cbn [fle]. apply Rleb_true, sqrt_le_1_alt.
    pose proof (Rle_0_sqr (z1 - z2)) as Hz. unfold Rsqr in Hz. lra.
  - intros ->. do 2 f_equal. ring.
Qed.

(** X5.  [RankineSource] applied to the distance of two points is +Inf from
    a point with finite coordinates to itself, with no error involved, and
    is never negative, whatever the two points. *)
Theorem RankineSource_of_distance :
  (forall x y z,
     RankineSource
       (ComputeDistance (finite_point x y z) (finite_point x y z))
     = PInf) /\
  (forall p q, flt (RankineSource (ComputeDistance p q)) (Fin 0) = false).
Proof.
  split.
  - intros x y z. rewrite ComputeDistance_same.
    unfold RankineSource. cbn [feq]. now rewrite Reqb_true.
  - intros p q. unfold ComputeDistance. cbv zeta.
    apply RankineSource_not_negative.
Qed.

(** X6.  [RankineSourceGradient] returns +Inf in all three components from
    a point with finite coordinates to itself; and whenever the distance of
    the two points does not compare equal to 0, exchanging the points
    negates every component. *)
Theorem RankineSourceGradient_cases :
  (forall x y z,
     RankineSourceGradient (finite_point x y z) (finite_point x y z)
     = (PInf, PInf, PInf)) /\
  (forall p q,
     feq (ComputeDistance p q) (Fin 0) = false ->
     RankineSourceGradient q p = negate (RankineSourceGradient p q)).
Proof.
  split.
  - intros x y z.
    pose proof (ComputeDistance_same x y z) as Hd.
    unfold ComputeDistance in Hd. unfold RankineSourceGradient. cbv zeta in *.
    rewrite Hd. cbn [feq]. now rewrite Reqb_true.
  - intros [[x1 y1] z1] [[x2 y2] z2].
    unfold ComputeDistance, RankineSourceGradient, negate, px, py, pz.
    cbn [fst snd]. cbv zeta.
    rewrite (fsub_swap_square x2 x1), (fsub_swap_square y2 y1),
      (fsub_swap_square z2 z1).
    intros Hr. rewrite Hr. cbn [fst snd].
    rewrite (fsub_anti x1 x2), (fsub_anti y1 y2), (fsub_anti z1 z2).
    now rewrite !fdiv_neg_l.
Qed.

Lemma RankineSourceGradient_cases_witness :
  RankineSourceGradient (finite_point 0 0 0) (finite_point 1 0 0)
  = negate (RankineSourceGradient (finite_point 1 0 0) (finite_point 0 0 0)).
Proof.
  apply (proj2 RankineSourceGradient_cases
           (finite_point 1 0 0) (finite_point 0 0 0)).
  rewrite ComputeDistance_finite. cbn [feq]. apply Reqb_false.
  replace ((1 - 0) * (1 - 0) + (0 - 0) * (0 - 0) + (0 - 0) * (0 - 0))
    with 1 by ring.
  rewrite sqrt_1. lra.
Defined.

(** ** More on the wave number *)

Lemma tanh_0 : tanh 0 = 0.
Proof. unfold tanh. rewrite sinh_0. unfold Rdiv. apply Rmult_0_l. Qed.

(** X8.  [ComputeWaveNumber] depends on the frequency only through its
    square: negating [omega] changes nothing, whatever the depth; and at
    zero frequency the wave number is 0 for every finite or infinite
    depth. *)
Theorem ComputeWaveNumber_even_and_zero :
  (forall omega h,
     ComputeWaveNumber (fneg omega) h = ComputeWaveNumber omega h) /\
  (forall h, ComputeWaveNumber (Fin 0) (Fin h) = czero) /\
  ComputeWaveNumber (Fin 0) PInf = czero.
Proof.
  split; [| split].
  - intros omega h. unfold ComputeWaveNumber.
    now rewrite fmul_neg_neg.
  - intros h. rewrite ComputeWaveNumber_finite.
    replace (0 * 0 / 9.81) with 0 by lra.
    rewrite newton_loop_step.
    unfold Spec.f'. rewrite Rmult_0_l, tanh_0.
    rewrite Rltb_true; [reflexivity |].
    replace (0 + 0 * (1 - 0 * 0)) with 0 by ring. rewrite Rabs_R0. lra.
  - rewrite ComputeWaveNumber_deep. unfold Gravity. cbn [fmul].
    rewrite fdiv_Fin by lra. unfold czero. do 2 f_equal. lra.
Qed.

(** X9.  At depth +Inf the two utilities fit together: the dispersion
    relation evaluated at the wave number computed for the same frequency
    has real part [v - v], with [v = omega*omega/Gravity], and imaginary
    part 0; so it is exactly 0 for every frequency of magnitude up to 1e150,
    whose square is still a finite number. *)
Theorem DispersionRelation_deep_water_root `{Cmplx} :
  (forall omega,
     DispersionRelation (ComputeWaveNumber omega PInf) omega PInf
     = complex (fsub (fdiv (fmul omega omega) Gravity)
                  (fdiv (fmul omega omega) Gravity)) (Fin 0)) /\
  (forall w, Rabs w <= 1e150 ->
     DispersionRelation (ComputeWaveNumber (Fin w) PInf) (Fin w) PInf
     = czero).
Proof.
  assert (Hgen : forall omega,
     DispersionRelation (ComputeWaveNumber omega PInf) omega PInf
     = complex (fsub (fdiv (fmul omega omega) Gravity)
                  (fdiv (fmul omega omega) Gravity)) (Fin 0)).
  { intros omega. rewrite ComputeWaveNumber_deep.
    unfold DispersionRelation. cbn [math.IsInf].
    unfold csub, complex, real, imag. cbn [fst snd].
    replace (fsub (Fin 0) (Fin 0)) with (Fin 0); [reflexivity |].
    cbn [fsub]. f_equal. ring. }
  split; [exact Hgen |].
  intros w _. rewrite Hgen. unfold Gravity. cbn [fmul].
  rewrite fdiv_Fin by lra. cbn [fsub]. unfold czero, complex.
  do 2 f_equal. ring.
Qed.

(** ** More on the tabulation cache *)

(** X10.  A cache built by [NewTabulationCache] keeps the two ranges and the
    precision it was given, has one zero-filled row of values per z
    coordinate and one column per r coordinate, is not valid, and therefore
    refuses every interpolation with the cache-invalid error. *)
Theorem NewTabulationCache_fresh (rRange zRange : list float64)
    (precision : FloatingPointPrecision) :
  RRange (NewTabulationCache rRange zRange precision) = rRange /\
  ZRange (NewTabulationCache rRange zRange precision) = zRange /\
  Precision (NewTabulationCache rRange zRange precision) = precision /\
  IsValid (NewTabulationCache rRange zRange precision) = false /\
  grid_shape (NewTabulationCache rRange zRange precision) /\
  Forall (Forall (fun v => v = czero))
    (Values (NewTabulationCache rRange zRange precision)) /\
  (forall r z,
     Interpolate (NewTabulationCache rRange zRange precision) r z
     = Err (GreenFunctionEvaluationError "Tabulation cache is not valid")).
Proof.
  repeat split.
  - simpl. apply repeat_length.
  - simpl. apply Forall_repeat. apply repeat_length.
  - simpl. apply Forall_repeat. apply Forall_repeat. reflexivity.
Qed.

(** X11.  With the value grid shaped as the ranges require, [Interpolate]
    never panics, whatever the ranges contain (unsorted, repeated or NaN
    coordinates included): it returns a value or one of its two errors.  The
    shape matters: a valid cache over ranges [0, 1] with no values at all
    panics at the centre. *)
Theorem Interpolate_never_panics :
  (forall tc r z msg, grid_shape tc -> Interpolate tc r z <> Panic msg) /\
  Interpolate
    (mkTabulationCache [Fin 0; Fin 1] [Fin 0; Fin 1] [] true Float64)
    (Fin 0.5) (Fin 0.5)
  = Panic "index out of range".
Proof.
  split.
  - intros tc r z msg Hshape.
    destruct (IsValid tc) eqn:Hv.
    + destruct (outside_grid tc r z) eqn:Ho.
      * rewrite (Interpolate_outside tc r z Hv Ho). discriminate.
      * pose proof (Interpolate_inside_Ok tc r z Hv Hshape Ho) as Hok.
        destruct (Interpolate tc r z); simpl in Hok;
          [discriminate | contradiction | contradiction].
    + rewrite (Interpolate_invalid tc r z Hv). discriminate.
  - assert (Hi : findIndex [Fin 0; Fin 1] (Fin 0.5) = 0%Z).
    { unfold findIndex. rewrite findIndex_from_cons.
      unfold fge; simpl fle. now rewrite !Rleb_true by lra. }
    rewrite Interpolate_inside; [| reflexivity |].
    + cbn [RRange ZRange Values]. rewrite Hi. reflexivity.
    + unfold outside_grid. cbn [RRange ZRange]. rewrite Hi. reflexivity.
Qed.

Lemma Interpolate_never_panics_witness :
  Interpolate test_cache (Fin 0.5) (Fin (-1.5)) <> Panic "index out of range".
Proof.
  apply (proj1 Interpolate_never_panics). exact test_cache_shape.
Defined.

Lemma findIndex_from_miss (arr : list float64) (val : float64) (s : Z) :
  (0 <= s)%Z ->
  (findIndex_from s arr val = (-1)%Z <-> forall m, ~ brackets arr val m).
Proof.
  revert s; induction arr as [| a rest IH]; intros s Hs.
  - simpl. split; [| reflexivity].
    intros _ m (x & y & Hx & _). destruct m; discriminate.
  - destruct rest as [| b rest].
    + simpl. split; [| reflexivity].
      intros _ m (x & y & Hx & Hy & _). destruct m as [| [| m]]; discriminate.
    + rewrite findIndex_from_cons. unfold fge.
      destruct (fle a val && fle val b) eqn:E.
      * split; [lia |]. intros Hno. exfalso. apply (Hno 0%nat).
        apply andb_true_iff in E. exists a, b. simpl. tauto.
      * rewrite (IH (s + 1)%Z ltac:(lia)). split.
        -- intros Hno [| m] (x & y & Hx & Hy & Hxv & Hvy).
           ++ simpl in Hx, Hy. inversion Hx; inversion Hy; subst.
              rewrite Hxv, Hvy in E. discriminate.
           ++ apply (Hno m). exists x, y. auto.
        -- intros Hno m (x & y & Hx & Hy & Hb). apply (Hno (S m)).
           exists x, y. auto.
Qed.

Lemma findIndex_from_first (arr : list float64) (val : float64) (s j : Z) :
  (0 <= s)%Z -> findIndex_from s arr val = j -> (s <= j)%Z ->
  brackets arr val (Z.to_nat (j - s)) /\
  forall m, (m < Z.to_nat (j - s))%nat -> ~ brackets arr val m.
Proof.
  revert s; induction arr as [| a rest IH]; intros s Hs.
  - simpl. intros <-; lia.
  - destruct rest as [| b rest]; [simpl; intros <-; lia |].
    rewrite findIndex_from_cons. unfold fge.
    destruct (fle a val && fle val b) eqn:E.
    + intros <- _. replace (s - s)%Z with 0%Z by lia. split; [| simpl; lia].
      apply andb_true_iff in E. exists a, b. simpl. tauto.
    + intros H Hle.
      assert (Hlt : (s + 1 <= j)%Z).
      { destruct (findIndex_from_range (b :: rest) val (s + 1)) as [H1 | H1];
          rewrite H in H1; lia. }
      destruct (IH (s + 1)%Z ltac:(lia) H Hlt) as [Hbr Hmin].
      replace (Z.to_nat (j - s)) with (S (Z.to_nat (j - (s + 1)))) by lia.
      split.
      * destruct Hbr as (x & y & Hx & Hy & Hb). exists x, y. auto.
      * intros [| m] Hm (x & y & Hx & Hy & Hxv & Hvy).
        -- simpl in Hx, Hy. inversion Hx; inversion Hy; subst.
           rewrite Hxv, Hvy in E. discriminate.
        -- apply (Hmin m ltac:(lia)). exists x, y. auto.
Qed.

Lemma fle_NaN_r (a : float64) : fle a NaN = false.
Proof. destruct a; reflexivity. Qed.

(** X12.  [findIndex] returns the first position whose consecutive pair
    brackets the value (inclusively at both ends) and -1 exactly when no
    pair does, on any slice, sorted or not; in particular it returns -1 on a
    slice of fewer than two coordinates and for a NaN value. *)
Theorem findIndex_first_bracket (arr : list float64) (val : float64) :
  (findIndex arr val = (-1)%Z <-> forall m, ~ brackets arr val m) /\
  (forall j, findIndex arr val = j -> (0 <= j)%Z ->
     brackets arr val (Z.to_nat j) /\
     forall m, (m < Z.to_nat j)%nat -> ~ brackets arr val m) /\
  ((List.length arr < 2)%nat -> findIndex arr val = (-1)%Z) /\
  findIndex arr NaN = (-1)%Z.
Proof.
  split; [apply findIndex_from_miss; lia |].
  split.
  { intros j Hj Hj0.
    destruct (findIndex_from_first arr val 0 j ltac:(lia) Hj Hj0) as [H1 H2].
    rewrite Z.sub_0_r in H1, H2. auto. }
  split.
  - intros Hlen. destruct arr as [| a [| b rest]]; try reflexivity.
    simpl in Hlen; lia.
  - apply findIndex_from_miss; [lia |].
    intros m (x & y & _ & _ & Hx & _). rewrite fle_NaN_r in Hx. discriminate.
Qed.

Lemma findIndex_first_bracket_witness :
  brackets [Fin 0; Fin 1; Fin 2; Fin 3] (Fin 1.5) (Z.to_nat 1) /\
  forall m, (m < Z.to_nat 1)%nat ->
            ~ brackets [Fin 0; Fin 1; Fin 2; Fin 3] (Fin 1.5) m.
Proof.
  apply (proj1 (proj2 (findIndex_first_bracket
                         [Fin 0; Fin 1; Fin 2; Fin 3] (Fin 1.5))) 1%Z);
    [| lia].
  unfold findIndex. rewrite !findIndex_from_cons. unfold fge. simpl fle.
  rewrite (Rleb_false 1.5 1) by lra. rewrite !Rleb_true by lra.
  reflexivity.
Defined.

Lemma flt_trans (a b c : float64) :
  flt a b = true -> flt b c = true -> flt a c = true.
Proof. destruct a, b, c; intros H1 H2; float_order. Qed.

Lemma flt_not_fle (a b : float64) : flt a b = true -> fle b a = false.
Proof. destruct a, b; intros H; float_order. Qed.

Lemma flt_fle_refl (a b : float64) :
  flt a b = true -> fle a a = true /\ fle b b = true.
Proof. destruct a, b; intros H; split; float_order. Qed.

Lemma increasing_tail (a : float64) (rest : list float64) :
  increasing (a :: rest) -> increasing rest.
Proof. destruct rest; simpl; tauto. Qed.

Lemma increasing_head_lt (a : float64) (rest : list float64) (m : nat)
    (v : float64) :
  increasing (a :: rest) -> nth_error rest m = Some v -> flt a v = true.
Proof.
  revert a m; induction rest as [| b rest IH]; intros a m Hinc Hv.
  - destruct m; discriminate.
  - destruct Hinc as [Hab Hinc]. destruct m as [| m].
    + simpl in Hv. inversion Hv; subst. exact Hab.
    + apply flt_trans with b; [exact Hab |]. eapply IH; eauto.
Qed.

Lemma increasing_consecutive (arr : list float64) (m : nat) (a b : float64) :
  increasing arr -> nth_error arr m = Some a -> nth_error arr (S m) = Some b ->
  flt a b = true.
Proof.
  revert m; induction arr as [| x rest IH]; intros m Hinc Ha Hb.
  - destruct m; discriminate.
  - destruct m as [| m].
    + simpl in Ha. inversion Ha; subst.
      eapply increasing_head_lt with (m := 0%nat); eauto.
    + apply (IH m); auto. now apply increasing_tail in Hinc.
Qed.

(** At a coordinate of a strictly increasing range other than the first,
    [findIndex] selects the cell that ends there. *)
Lemma findIndex_from_node (arr : list float64) (m : nat) (v : float64)
    (s : Z) :
  increasing arr -> nth_error arr (S m) = Some v ->
  findIndex_from s arr v = (s + Z.of_nat m)%Z.
Proof.
  revert m s; induction arr as [| a rest IH]; intros m s Hinc Hv;
    [discriminate |].
  destruct rest as [| b rest]; [destruct m; discriminate |].
  rewrite findIndex_from_cons. unfold fge.
  destruct Hinc as [Hab Hinc].
  destruct m as [| m].
  - simpl in Hv. inversion Hv; subst v.
    rewrite (flt_fle _ _ Hab), (proj2 (flt_fle_refl _ _ Hab)). simpl. lia.
  - assert (Hbv : flt b v = true)
      by (eapply increasing_head_lt with (m := m); eauto).
    rewrite (flt_not_fle _ _ Hbv), andb_false_r.
    rewrite (IH m (s + 1)%Z Hinc Hv). lia.
Qed.

Lemma findIndex_from_first_node (a b : float64) (rest : list float64) (s : Z) :
  increasing (a :: b :: rest) -> findIndex_from s (a :: b :: rest) a = s.
Proof.
  intros [Hab _]. rewrite findIndex_from_cons. unfold fge.
  now rewrite (proj1 (flt_fle_refl _ _ Hab)), (flt_fle _ _ Hab).
Qed.

Lemma Forall_nth_error {A : Type} (P : A -> Prop) (l : list A) (n : nat)
    (x : A) :
  Forall P l -> nth_error l n = Some x -> P x.
Proof.
  intros HF Hn. rewrite Forall_forall in HF. apply HF.
  eapply nth_error_In; eauto.
Qed.

Lemma is_finite_Fin (f : float64) : is_finite f -> exists x, f = Fin x.
Proof. destruct f; simpl; intros H; try contradiction. eauto. Qed.

(** The cell and the weight [findIndex] gives at a coordinate of the range:
    weight 0 on the cell that starts there (first coordinate), weight 1 on
    the cell that ends there (any other). *)
Lemma node_cell (arr : list float64) (i : nat) (r : R) :
  increasing arr -> Forall is_finite arr ->
  (2 <= List.length arr)%nat -> nth_error arr i = Some (Fin r) ->
  exists (i' : nat) (r1 r2 t : R),
    findIndex arr (Fin r) = Z.of_nat i' /\
    nth_error arr i' = Some (Fin r1) /\
    nth_error arr (S i') = Some (Fin r2) /\
    fdiv (fsub (Fin r) (Fin r1)) (fsub (Fin r2) (Fin r1)) = Fin t /\
    ((t = 0 /\ i = i') \/ (t = 1 /\ i = S i')).
Proof.
  intros Hinc Hfin Hlen Hi.
  destruct i as [| m].
  - destruct arr as [| a [| b rest]]; try (simpl in Hlen; lia).
    simpl in Hi. inversion Hi; subst a.
    assert (Hb : is_finite b)
      by (eapply Forall_nth_error with (n := 1%nat); eauto).
    apply is_finite_Fin in Hb as [r2 ->].
    assert (Hlt : r < r2).
    { destruct Hinc as [Hab _]. simpl in Hab.
      destruct (Rltb_spec r r2); [assumption | discriminate]. }
    exists 0%nat, r, r2, 0. repeat split.
    + unfold findIndex. now apply findIndex_from_first_node.
    + cbn [fsub]. rewrite fdiv_Fin by lra. f_equal. field. lra.
    + left. auto.
  - assert (Hm : exists a, nth_error arr m = Some a).
    { destruct (nth_error arr m) eqn:E; [eauto |].
      apply nth_error_None in E.
      assert (S m < List.length arr)%nat
        by (apply nth_error_Some; congruence).
      lia. }
    destruct Hm as [a Ha].
    assert (Hfa : is_finite a) by (eapply Forall_nth_error; eauto).
    apply is_finite_Fin in Hfa as [r1 ->].
    assert (Hlt : r1 < r).
    { pose proof (increasing_consecutive arr m _ _ Hinc Ha Hi) as H.
      simpl in H. destruct (Rltb_spec r1 r); [assumption | discriminate]. }
    exists m, r1, r, 1. repeat split; auto.
    + unfold findIndex. rewrite (findIndex_from_node arr m (Fin r) 0 Hinc Hi).
      lia.
    + cbn [fsub]. rewrite fdiv_Fin by lra. f_equal. field. lra.
Qed.

Lemma index_of_nth_error {A : Type} (s : list A) (n : nat) (x : A) :
  nth_error s n = Some x -> index s (Z.of_nat n) = Ok x.
Proof.
  intros H. apply index_Ok. split; [lia |]. now rewrite Nat2Z.id.
Qed.

Lemma index2_finite (vs : list (list complex128)) (i j : Z) (v : complex128) :
  Forall (Forall is_finite_c) vs -> index2 vs i j = Ok v ->
  exists a b, v = complex (Fin a) (Fin b).
Proof.
  intros HF H. unfold index2 in H.
  apply bind_Ok in H as (row & Hrow & Hv).
  apply index_Ok in Hrow as [_ Hrow]. apply index_Ok in Hv as [_ Hv].
  pose proof (Forall_nth_error _ _ _ _ HF Hrow) as Hr.
  pose proof (Forall_nth_error _ _ _ _ Hr Hv) as [H1 H2].
  destruct v as [re im]. simpl in H1, H2.
  apply is_finite_Fin in H1 as [a ->]. apply is_finite_Fin in H2 as [b ->].
  eauto.
Qed.

Lemma magnitude_le_finite (bound : R) (arr : list float64) :
  Forall (magnitude_le bound) arr -> Forall is_finite arr.
Proof.
  apply Forall_impl. intros [x | | |]; simpl; auto.
Qed.

(** X13.  The interpolation reproduces the table: on a valid cache with
    strictly increasing ranges whose coordinates are at most 1e300 in
    magnitude (so that the difference of two of them is still a finite
    number) and with finite values, [Interpolate] at a grid node
    [(RRange[i], ZRange[j])] returns exactly [Values[j][i]]. *)
Theorem Interpolate_at_node (tc : TabulationCache) (i j : nat) (r z : R)
    (v : complex128) :
  IsValid tc = true -> grid_shape tc ->
  increasing (RRange tc) -> increasing (ZRange tc) ->
  Forall (magnitude_le 1e300) (RRange tc) ->
  Forall (magnitude_le 1e300) (ZRange tc) ->
  Forall (Forall is_finite_c) (Values tc) ->
  (2 <= List.length (RRange tc))%nat -> (2 <= List.length (ZRange tc))%nat ->
  nth_error (RRange tc) i = Some (Fin r) ->
  nth_error (ZRange tc) j = Some (Fin z) ->
  index2 (Values tc) (Z.of_nat j) (Z.of_nat i) = Ok v ->
  Interpolate tc (Fin r) (Fin z) = Ok v.
Proof.
  intros Hv [Hrows Hcols] HincR HincZ HfinR HfinZ HfinV HlenR HlenZ Hi Hj Hval.
  apply magnitude_le_finite in HfinR, HfinZ.
  destruct (node_cell _ _ _ HincR HfinR HlenR Hi)
    as (i' & r1 & r2 & tr & HfiR & Hr1 & Hr2 & Htr & HselR).
  destruct (node_cell _ _ _ HincZ HfinZ HlenZ Hj)
    as (j' & z1 & z2 & tz & HfiZ & Hz1 & Hz2 & Htz & HselZ).
  assert (Hi'lt : (S i' < List.length (RRange tc))%nat)
    by (apply nth_error_Some; congruence).
  assert (Hj'lt : (S j' < List.length (ZRange tc))%nat)
    by (apply nth_error_Some; congruence).
  destruct (index2_in_range (Values tc) _ _ (Z.of_nat j') (Z.of_nat i')
              Hrows Hcols ltac:(lia) ltac:(lia)) as [v11 H11].
  destruct (index2_in_range (Values tc) _ _ (Z.of_nat j' + 1) (Z.of_nat i')
              Hrows Hcols ltac:(lia) ltac:(lia)) as [v12 H12].
  destruct (index2_in_range (Values tc) _ _ (Z.of_nat j') (Z.of_nat i' + 1)
              Hrows Hcols ltac:(lia) ltac:(lia)) as [v21 H21].
  destruct (index2_in_range (Values tc) _ _ (Z.of_nat j' + 1)
              (Z.of_nat i' + 1) Hrows Hcols ltac:(lia) ltac:(lia))
    as [v22 H22].
  rewrite (Interpolate_blend tc (Fin r) (Fin z) (Z.of_nat i') (Z.of_nat j')
             (Fin r1) (Fin r2) (Fin z1) (Fin z2) v11 v12 v21 v22);
    auto; try lia; try (now apply index_of_nth_error).
  2: { replace (Z.of_nat i' + 1)%Z with (Z.of_nat (S i')) by lia.
       now apply index_of_nth_error. }
  2: { replace (Z.of_nat j' + 1)%Z with (Z.of_nat (S j')) by lia.
       now apply index_of_nth_error. }
  rewrite Htr, Htz.
  destruct (index2_finite _ _ _ _ HfinV H11) as (a11 & b11 & ->).
  destruct (index2_finite _ _ _ _ HfinV H12) as (a12 & b12 & ->).
  destruct (index2_finite _ _ _ _ HfinV H21) as (a21 & b21 & ->).
  destruct (index2_finite _ _ _ _ HfinV H22) as (a22 & b22 & ->).
  rewrite Bilinear_real. f_equal.
  destruct HselR as [[-> ->] | [-> ->]], HselZ as [[-> ->] | [-> ->]].
  - rewrite H11 in Hval. inversion Hval; subst v.
    unfold complex. f_equal; f_equal; ring.
  - replace (Z.of_nat (S j')) with (Z.of_nat j' + 1)%Z in Hval by lia.
    rewrite H12 in Hval. inversion Hval; subst v.
    unfold complex. f_equal; f_equal; ring.
  - replace (Z.of_nat (S i')) with (Z.of_nat i' + 1)%Z in Hval by lia.
    rewrite H21 in Hval. inversion Hval; subst v.
    unfold complex. f_equal; f_equal; ring.
  - replace (Z.of_nat (S i')) with (Z.of_nat i' + 1)%Z in Hval by lia.
    replace (Z.of_nat (S j')) with (Z.of_nat j' + 1)%Z in Hval by lia.
    rewrite H22 in Hval. inversion Hval; subst v.
    unfold complex. f_equal; f_equal; ring.
Qed.

Lemma test_cache_increasing :
  increasing (RRange test_cache) /\ increasing (ZRange test_cache).
Proof. simpl. rewrite !Rltb_true by lra. auto. Qed.

Lemma test_cache_finite :
  Forall (magnitude_le 1e300) (RRange test_cache) /\
  Forall (magnitude_le 1e300) (ZRange test_cache) /\
  Forall (Forall is_finite_c) (Values test_cache).
Proof.
  repeat split; simpl; repeat constructor; simpl; auto;
    unfold Rabs; destruct (Rcase_abs _); lra.
Qed.

(** At the node [(1, -1)] of the test cache the stored value 4 comes
    back. *)
Lemma Interpolate_at_node_witness :
  Interpolate test_cache (Fin 1) (Fin (-1)) = Ok (complex (Fin 4) (Fin 0)).
Proof.
  apply (Interpolate_at_node test_cache 1 1 1 (-1));
    try reflexivity; try apply test_cache_shape;
    try apply test_cache_increasing; try apply test_cache_finite;
    simpl; lia.
Defined.

(** ** More on the strategies *)

Lemma assemble_base_irrelevant (b b' : BaseGreenFunction)
    (mesh1 mesh2 : GoValue) (adj early : bool) :
  assemble b mesh1 mesh2 adj early = assemble b' mesh1 mesh2 adj early.
Proof. reflexivity. Qed.

Lemma Strategy_Evaluate_checked (s : Strategy) (mesh1 mesh2 : GoValue)
    (fs wd : float64) (k : complex128) (adj early : bool) :
  own_check s fs wd = true ->
  Strategy_Evaluate s mesh1 mesh2 fs wd k adj early
  = assemble (Strategy_base s) mesh1 mesh2 adj early.
Proof.
  destruct s as [d | fg | lwn | h]; simpl; intros Hc.
  - reflexivity.
  - unfold FinGreen3D_Evaluate, SetWaveNumber, computeDispersionRoots.
    simpl. destruct (fne wd (waterDepth fg)); reflexivity.
  - rewrite LiangWuNoblesseGF_Evaluate_cases.
    destruct (math.IsInf fs 1 || negb (math.IsInf wd 1));
      [discriminate | reflexivity].
  - reflexivity.
Qed.

(** X15.  Once a strategy's own domain check passes, the outcome of
    [Evaluate] depends only on the two mesh arguments and the two flags:
    every strategy, whatever its precision setting and its state, and
    whatever the free surface, the water depth and the wave number, returns
    the same matrices, the same error or the same panic. *)
Theorem Evaluate_same_for_all_strategies (s s' : Strategy)
    (mesh1 mesh2 : GoValue) (fs wd fs' wd' : float64) (k k' : complex128)
    (adj early : bool) :
  own_check s fs wd = true -> own_check s' fs' wd' = true ->
  Strategy_Evaluate s mesh1 mesh2 fs wd k adj early
  = Strategy_Evaluate s' mesh1 mesh2 fs' wd' k' adj early.
Proof.
  intros Hc Hc'. rewrite !Strategy_Evaluate_checked by assumption.
  apply assemble_base_irrelevant.
Qed.

(** Delhommeau against LiangWuNoblesseGF in the latter's valid regime, as in
    the integration test, with different wave numbers. *)
Lemma Evaluate_same_for_all_strategies_witness :
  Strategy_Evaluate (UseDelhommeau (NewDelhommeau DefaultDelhommeauParameters))
    (AsMeshLike mesh_a) (AsMeshLike mesh_b) (Fin 0) (Fin 20)
    (complex (Fin 1) (Fin 0)) true true
  = Strategy_Evaluate (UseLiangWuNoblesseGF NewLiangWuNoblesseGF)
      (AsMeshLike mesh_a) (AsMeshLike mesh_b) (Fin 0) PInf
      (complex (Fin 2) (Fin 0)) true true.
Proof.
  apply Evaluate_same_for_all_strategies; reflexivity.
Defined.

(** X16.  The errors of [Evaluate] on unusable arguments, for every strategy
    past its own check: an unrecognised first argument and a point array
    that is not three columns wide are reported as such; a second argument
    that is not a mesh is an error when the first is a mesh (a plain error
    without the adjoint double layer, a [GreenFunctionEvaluationError] with
    it); and whatever the first argument, no call with a second argument
    that is not a mesh returns matrices. *)
Theorem Evaluate_argument_errors (s : Strategy) (mesh1 mesh2 : GoValue)
    (fs wd : float64) (k : complex128) (adj early : bool) :
  own_check s fs wd = true ->
  (mesh1 = AsOther ->
   Strategy_Evaluate s mesh1 mesh2 fs wd k adj early
   = Err (errorString
            "unrecognized first input type for Green function evaluation")) /\
  (forall d, mesh1 = AsDense d -> mat.d_cols d <> 3%Z ->
   Strategy_Evaluate s mesh1 mesh2 fs wd k adj early
   = Err (errorString
            "point array must have 3 columns (x, y, z coordinates)")) /\
  (forall m1, mesh1 = AsMeshLike m1 -> is_mesh mesh2 = false ->
   Strategy_Evaluate s mesh1 mesh2 fs wd k adj early
   = if adj
     then Err (GreenFunctionEvaluationError
                 "mesh2 must implement MeshLike interface")
     else Err (errorString
            "mesh2 must implement MeshLike interface when mesh1 is MeshLike")) /\
  (is_mesh mesh2 = false ->
   ~ is_Ok (Strategy_Evaluate s mesh1 mesh2 fs wd k adj early)).
Proof.
  intros Hc. rewrite (Strategy_Evaluate_checked s mesh1 mesh2 fs wd k adj early Hc).
  split; [| split; [| split]].
  - intros ->. reflexivity.
  - intros d -> Hcols. unfold assemble, getColocationPointsAndNormals.
    cbn [mat.Dims]. destruct (Z.eqb_spec (mat.d_cols d) 3); [contradiction |].
    reflexivity.
  - intros m1 -> Hm2. unfold assemble, getColocationPointsAndNormals.
    destruct mesh2 as [m2 | d2 |]; try discriminate; destruct adj; reflexivity.
  - intros Hm2 Hok.
    destruct (assemble (Strategy_base s) mesh1 mesh2 adj early)
      as [[matS matK] | e | msg] eqn:E; try contradiction.
    apply assemble_Ok in E as (_ & [m2 ->] & _). discriminate.
Qed.

Lemma Evaluate_argument_errors_witness :
  Strategy_Evaluate (UseHAMS NewHAMS) (AsMeshLike mesh_a) AsOther
    (Fin 0) PInf (complex (Fin 1) (Fin 0)) true true
  = Err (GreenFunctionEvaluationError "mesh2 must implement MeshLike interface").
Proof.
  apply (proj1 (proj2 (proj2 (Evaluate_argument_errors (UseHAMS NewHAMS)
           (AsMeshLike mesh_a) AsOther (Fin 0) PInf (complex (Fin 1) (Fin 0))
           true true eq_refl))) mesh_a); reflexivity.
Defined.

Lemma NewCDense_nonpositive (r c : Z) :
  (r <= 0 \/ c <= 0)%Z ->
  mat.NewCDense r c
  = Panic (if (r =? 0)%Z || (c =? 0)%Z then mat.ErrZeroLength
           else mat.ErrNegativeDimension).
Proof.
  intros H. unfold mat.NewCDense, mat.check_dims.
  replace ((r <=? 0)%Z || (c <=? 0)%Z) with true.
  - destruct ((r =? 0)%Z || (c =? 0)%Z); reflexivity.
  - symmetry. apply orb_true_iff.
    destruct H; [left | right]; now apply Z.leb_le.
Qed.

Lemma assemble_meshes (b : BaseGreenFunction) (m1 m2 : MeshLike)
    (adj early : bool) :
  assemble b (AsMeshLike m1) (AsMeshLike m2) adj early
  = ('(matS, matK) <-
       initMatrices b (GetNbFaces m1) (GetNbFaces m2) early ;;
     Ok (matS, matK)).
Proof.
  unfold assemble, getColocationPointsAndNormals. destruct adj; reflexivity.
Qed.

(** X17.  An empty mesh is not an error but a crash: past its own check,
    every strategy called on two meshes one of which has no panel ends in
    gonum's zero-length panic, and with a negative panel count (and no zero
    one) in its negative-dimension panic. *)
Theorem Evaluate_empty_mesh_panics (s : Strategy) (m1 m2 : MeshLike)
    (fs wd : float64) (k : complex128) (adj early : bool) :
  own_check s fs wd = true ->
  ((GetNbFaces m1 = 0 \/ GetNbFaces m2 = 0)%Z ->
   Strategy_Evaluate s (AsMeshLike m1) (AsMeshLike m2) fs wd k adj early
   = Panic mat.ErrZeroLength) /\
  ((GetNbFaces m1 < 0 \/ GetNbFaces m2 < 0)%Z ->
   GetNbFaces m1 <> 0%Z -> GetNbFaces m2 <> 0%Z ->
   Strategy_Evaluate s (AsMeshLike m1) (AsMeshLike m2) fs wd k adj early
   = Panic mat.ErrNegativeDimension).
Proof.
  intros Hc.
  rewrite (Strategy_Evaluate_checked s _ _ fs wd k adj early Hc).
  rewrite assemble_meshes. unfold initMatrices.
  split.
  - intros H0. rewrite NewCDense_nonpositive by lia.
    replace ((GetNbFaces m1 =? 0)%Z || (GetNbFaces m2 =? 0)%Z) with true;
      [reflexivity |].
    symmetry. apply orb_true_iff.
    destruct H0; [left | right]; now apply Z.eqb_eq.
  - intros Hneg H1 H2. rewrite NewCDense_nonpositive by lia.
    replace ((GetNbFaces m1 =? 0)%Z || (GetNbFaces m2 =? 0)%Z) with false;
      [reflexivity |].
    symmetry. apply orb_false_iff. split; now apply Z.eqb_neq.
Qed.

Lemma Evaluate_empty_mesh_panics_witness :
  Strategy_Evaluate (UseDelhommeau (NewDelhommeau DefaultDelhommeauParameters))
    (AsMeshLike (mkMeshLike (mat.mkDense 0 3 []) (mat.mkDense 0 3 []) 0))
    (AsMeshLike mesh_b) (Fin 0) PInf (complex (Fin 1) (Fin 0)) true true
  = Panic mat.ErrZeroLength.
Proof.
  apply (proj1 (Evaluate_empty_mesh_panics
                  (UseDelhommeau (NewDelhommeau DefaultDelhommeauParameters))
                  (mkMeshLike (mat.mkDense 0 3 []) (mat.mkDense 0 3 []) 0)
                  mesh_b (Fin 0) PInf (complex (Fin 1) (Fin 0)) true true
                  eq_refl)).
  left. reflexivity.
Defined.

(** ** More on FinGreen3D *)



(** X19.  [SetWaveNumber] replaces the stored wave number and root family
    and never fails: setting a wave number after another leaves the
    strategy exactly as setting the last one alone, and the family stored
    has eleven roots at any depth other than +Inf and one root at +Inf. *)
Theorem SetWaveNumber_overwrites (fg : FinGreen3D) (k1 k2 : complex128) :
  SetWaveNumber (fst (SetWaveNumber fg k1)) k2 = SetWaveNumber fg k2 /\
  snd (SetWaveNumber fg k1) = Ok tt /\
  waterDepth (fst (SetWaveNumber fg k1)) = waterDepth fg /\
  List.length (dispersionRoots (fst (SetWaveNumber fg k1)))
  = (if math.IsInf (waterDepth fg) 1 then 1 else 11)%nat.
Proof.
  unfold SetWaveNumber, computeDispersionRoots.
  cbn [fst snd waterDepth waveNumber dispersionRoots fg_base].
  repeat split.
  destruct (math.IsInf (waterDepth fg) 1); reflexivity.
Qed.

(** ** FinGreen3D's kernel *)

Lemma Rankine_swap (rr zf zp : float64) :
  Spec.Rankine rr zf zp = Spec.Rankine rr zp zf.
Proof.
  unfold Spec.Rankine.
  now rewrite (fsub_swap_square zf zp), (fadd_comm zf zp).
Qed.

Lemma Rankine_even (rr zf zp : float64) :
  Spec.Rankine (fneg rr) zf zp = Spec.Rankine rr zf zp.
Proof. unfold Spec.Rankine. now rewrite fmul_neg_neg. Qed.

Lemma computeInfiniteDepthGF_unfold (fg : FinGreen3D) (rr zf zp : float64) :
  computeInfiniteDepthGF fg rr zf zp
  = if feq (real (waveNumber fg)) (Fin 0)
    then Ok (complex (Spec.Rankine rr zf zp) (Fin 0))
    else Ok (cadd (complex (Spec.Rankine rr zf zp) (Fin 0))
               (if fgt (fmul (real (waveNumber fg)) (fadd zf zp)) (Fin (-10))
                then complex
                       (fmul (fmul (Fin 2) (real (waveNumber fg)))
                          (math.Exp (fmul (real (waveNumber fg)) (fadd zf zp))))
                       (Fin 0)
                else complex (Fin 0) (Fin 0))).
Proof. reflexivity. Qed.

(** X20.  The infinite-depth kernel never fails, is purely real (its
    imaginary part is exactly 0 whatever the stored wave number, whose
    imaginary part is ignored), is unchanged when field and source depths
    are exchanged, and is even in the horizontal distance. *)
Theorem computeInfiniteDepthGF_symmetries (fg : FinGreen3D)
    (rr zf zp : float64) :
  (exists g, computeInfiniteDepthGF fg rr zf zp = Ok (complex g (Fin 0))) /\
  computeInfiniteDepthGF fg rr zp zf = computeInfiniteDepthGF fg rr zf zp /\
  computeInfiniteDepthGF fg (fneg rr) zf zp
  = computeInfiniteDepthGF fg rr zf zp /\
  (forall im,
     computeInfiniteDepthGF
       (mkFinGreen3D (fg_base fg) (waterDepth fg)
          (complex (real (waveNumber fg)) im) (dispersionRoots fg)) rr zf zp
     = computeInfiniteDepthGF fg rr zf zp).
Proof.
  split; [| split; [| split]].
  - rewrite computeInfiniteDepthGF_unfold.
    destruct (feq (real (waveNumber fg)) (Fin 0)); [eauto |].
    destruct (fgt _ _); eexists; unfold cadd, complex, real, imag;
      cbn [fst snd fadd]; rewrite Rplus_0_r; reflexivity.
  - rewrite !computeInfiniteDepthGF_unfold.
    now rewrite (Rankine_swap rr zp zf), (fadd_comm zp zf).
  - rewrite !computeInfiniteDepthGF_unfold. now rewrite Rankine_even.
  - intros im. reflexivity.
Qed.

(** X21.  There is no guard for coincident points in the infinite-depth
    kernel: for a field point on top of the source point (zero horizontal
    distance, equal finite depths) and a wave number whose real part is a
    finite number [k >= 0], the call succeeds, and the real part of the
    value is +Inf. *)
Theorem computeInfiniteDepthGF_coincident (fg : FinGreen3D) (k z : R) :
  real (waveNumber fg) = Fin k -> 0 <= k ->
  computeInfiniteDepthGF fg (Fin 0) (Fin z) (Fin z)
  = Ok (complex PInf (Fin 0)).
Proof.
  intros Hk Hk0. rewrite computeInfiniteDepthGF_unfold. rewrite Hk.
  assert (HR : Spec.Rankine (Fin 0) (Fin z) (Fin z) = PInf).
  { unfold Spec.Rankine. cbn [fsub fadd fmul].
    replace (0 * 0 + (z - z) * (z - z)) with 0 by ring.
    rewrite (Sqrt_Fin 0) by lra. rewrite sqrt_0.
    rewrite Sqrt_Fin
      by (pose proof (Rle_0_sqr (z + z)); unfold Rsqr in *; lra).
    assert (H0 : fdiv (Fin 1) (Fin 0) = PInf).
    { simpl. rewrite Reqb_true by reflexivity. unfold signed_inf.
      now rewrite Rltb_true by lra. }
    rewrite H0.
    destruct (fdiv (Fin 1) (Fin (sqrt (0 * 0 + (z + z) * (z + z))))) eqn:E;
      try reflexivity.
    - cbn [fdiv] in E. unfold signed_inf in E.
      rewrite (Rltb_true 0 1) in E by lra.
      destruct (Reqb _ 0); discriminate.
    - cbn [fdiv] in E. unfold signed_inf in E.
      rewrite (Rltb_true 0 1) in E by lra.
      destruct (Reqb _ 0); discriminate. }
  rewrite HR.
  destruct (feq (Fin k) (Fin 0)); [reflexivity |].
  cbn [fmul fadd math.Exp].
  destruct (fgt _ _); unfold cadd, complex, real, imag; cbn [fst snd fadd];
    now rewrite Rplus_0_r.
Qed.

Lemma computeInfiniteDepthGF_coincident_witness :
  computeInfiniteDepthGF
    (fst (SetWaveNumber (NewFinGreen3D PInf) (complex (Fin 1) (Fin 0))))
    (Fin 0) (Fin (-1)) (Fin (-1))
  = Ok (complex PInf (Fin 0)).
Proof.
  apply (computeInfiniteDepthGF_coincident _ 1 (-1)); [reflexivity | lra].
Defined.

Section WithCmplx.
Context `{Cmplx}.

Lemma computeWaveTerm_swap (fg : FinGreen3D) (rr zf zp : float64)
    (k : complex128) (isPropagating : bool) :
  computeWaveTerm fg rr zp zf k isPropagating
  = computeWaveTerm fg rr zf zp k isPropagating.
Proof.
  unfold computeWaveTerm. destruct isPropagating;
    cbv zeta; f_equal; apply cmul_comm.
Qed.

Lemma waveSum_swap (fg : FinGreen3D) (rr zf zp : float64)
    (roots : list complex128) :
  forall (i : Z) (acc : complex128),
    waveSum fg rr zp zf roots i acc = waveSum fg rr zf zp roots i acc.
Proof.
  induction roots as [| root rest IH]; intros i acc; [reflexivity |].
  cbn [waveSum]. rewrite !(computeWaveTerm_swap fg rr zf zp). apply IH.
Qed.

(** X22.  Whatever the depth regime, the kernel [computeGreenFunction3D]
    never fails and is unchanged when the depths of field and source point
    are exchanged; and for a strategy fresh from [NewFinGreen3D], whose wave
    number has never been set, it is the Rankine pair alone at every depth,
    with no wave part. *)
Theorem computeGreenFunction3D_reciprocity (fg : FinGreen3D)
    (rr zf zp : float64) :
  (exists g, computeGreenFunction3D fg rr zf zp = Ok g) /\
  computeGreenFunction3D fg rr zp zf = computeGreenFunction3D fg rr zf zp /\
  (forall h,
     computeGreenFunction3D (NewFinGreen3D h) rr zf zp
     = Ok (complex (Spec.Rankine rr zf zp) (Fin 0))).
Proof.
  split; [| split].
  - unfold computeGreenFunction3D.
    destruct (math.IsInf (waterDepth fg) 1).
    + rewrite computeInfiniteDepthGF_unfold.
      destruct (feq _ _); eauto.
    + unfold computeFiniteDepthGF. eauto.
  - unfold computeGreenFunction3D.
    destruct (math.IsInf (waterDepth fg) 1).
    + rewrite !computeInfiniteDepthGF_unfold.
      now rewrite (Rankine_swap rr zp zf), (fadd_comm zp zf).
    + unfold computeFiniteDepthGF.
      rewrite waveSum_swap, (fsub_swap_square zp zf), (fadd_comm zp zf).
      reflexivity.
  - intros h. unfold computeGreenFunction3D.
    destruct (math.IsInf (waterDepth (NewFinGreen3D h)) 1).
    + rewrite computeInfiniteDepthGF_unfold.
      unfold NewFinGreen3D; cbn [waveNumber real czero complex fst feq].
      now rewrite Reqb_true by reflexivity.
    + unfold computeFiniteDepthGF, NewFinGreen3D;
        cbn [dispersionRoots waveSum].
      fold (Spec.Rankine rr zf zp). now rewrite cadd_zero_r.
Qed.

(** ** Prony decompositions *)

Lemma index_head {A : Type} (e : A) (exps : list A) (i : Z) :
  (0 <= i)%Z -> index (e :: exps) (i + 1) = index exps i.
Proof.
  intros Hi. unfold index.
  destruct (Z.ltb_spec (i + 1) 0); [lia |].
  destruct (Z.ltb_spec i 0); [lia |].
  replace (Z.to_nat (i + 1)) with (S (Z.to_nat i)) by lia. reflexivity.
Qed.

Lemma index_zero {A : Type} (e : A) (exps : list A) :
  index (e :: exps) 0 = Ok e.
Proof. reflexivity. Qed.

Lemma index_nil {A : Type} (i : Z) :
  index (@nil A) i = Panic "index out of range".
Proof.
  unfold index. destruct (i <? 0)%Z; [reflexivity |].
  now destruct (Z.to_nat i).
Qed.

Lemma Prony_loop_shift (coeffs : list complex128) :
  forall (i : Z) (e : complex128) (exps : list complex128) (x : float64)
         (acc : complex128),
    (0 <= i)%Z ->
    Prony_loop coeffs (i + 1) (e :: exps) x acc
    = Prony_loop coeffs i exps x acc.
Proof.
  induction coeffs as [| c rest IH]; intros i e exps x acc Hi;
    [reflexivity |].
  cbn [Prony_loop]. rewrite index_head by assumption.
  destruct (index exps i) as [ei | err | msg]; cbn [bind]; try reflexivity.
  apply IH. lia.
Qed.

(** The sum the loop accumulates over coefficients and exponents taken in
    pairs. *)
Lemma Prony_loop_pairs (coeffs : list complex128) :
  forall (exps : list complex128) (x : float64) (acc : complex128),
    (List.length coeffs <= List.length exps)%nat ->
    Prony_loop coeffs 0 exps x acc
    = Ok (fold_left
            (fun a ce =>
               cadd a (cmul (fst ce)
                         (cmplx_Exp (cmul (snd ce) (complex x (Fin 0))))))
            (combine coeffs exps) acc).
Proof.
  induction coeffs as [| c rest IH]; intros exps x acc Hlen;
    [reflexivity |].
  destruct exps as [| e exps]; [simpl in Hlen; lia |].
  cbn [Prony_loop]. rewrite index_zero. cbn [bind].
  change (0 + 1)%Z with (0 + 1)%Z.
  rewrite Prony_loop_shift by lia.
  rewrite IH by (simpl in Hlen; lia). reflexivity.
Qed.

Lemma Prony_loop_short (coeffs : list complex128) :
  forall (exps : list complex128) (x : float64) (acc : complex128),
    (List.length exps < List.length coeffs)%nat ->
    Prony_loop coeffs 0 exps x acc = Panic "index out of range".
Proof.
  induction coeffs as [| c rest IH]; intros exps x acc Hlen;
    [simpl in Hlen; lia |].
  destruct exps as [| e exps].
  - cbn [Prony_loop]. now rewrite index_nil.
  - cbn [Prony_loop]. rewrite index_zero. cbn [bind].
    rewrite Prony_loop_shift by lia. apply IH. simpl in Hlen; lia.
Qed.

Lemma combine_longer {A B : Type} (l : list A) :
  forall (l1 more : list B),
    (List.length l <= List.length l1)%nat ->
    combine l (l1 ++ more) = combine l l1.
Proof.
  induction l as [| a l IH]; intros l1 more Hlen; [reflexivity |].
  destruct l1 as [| b l1]; [simpl in Hlen; lia |].
  cbn [combine app]. f_equal. apply IH. simpl in Hlen; lia.
Qed.

(** X23.  [PronyDecomposition.Evaluate] pairs each coefficient with the
    exponent at the same position: with at least as many exponents as
    coefficients it returns the sum of [c * exp(e * x)] over the pairs,
    starting from 0, and exponents beyond the last coefficient play no
    role; with fewer exponents than coefficients it panics on the index,
    where the constructor accepted the two slices unchecked. *)
Theorem PronyDecomposition_Evaluate_cases (coeffs exps : list complex128)
    (x : float64) :
  ((List.length coeffs <= List.length exps)%nat ->
   PronyDecomposition_Evaluate (NewPronyDecomposition coeffs exps) x
   = Ok (fold_left
           (fun a ce =>
              cadd a (cmul (fst ce)
                        (cmplx_Exp (cmul (snd ce) (complex x (Fin 0))))))
           (combine coeffs exps) czero)) /\
  ((List.length coeffs <= List.length exps)%nat ->
   forall more,
     PronyDecomposition_Evaluate
       (NewPronyDecomposition coeffs (exps ++ more)) x
     = PronyDecomposition_Evaluate (NewPronyDecomposition coeffs exps) x) /\
  ((List.length exps < List.length coeffs)%nat ->
   PronyDecomposition_Evaluate (NewPronyDecomposition coeffs exps) x
   = Panic "index out of range").
Proof.
  unfold PronyDecomposition_Evaluate, NewPronyDecomposition;
    cbn [Coefficients Exponents].
  split; [| split].
  - apply Prony_loop_pairs.
  - intros Hlen more.
    rewrite !Prony_loop_pairs
      by (rewrite ?length_app; lia).
    now rewrite combine_longer.
  - apply Prony_loop_short.
Qed.

End WithCmplx.
